(** * Configuration resolution of the Apollo language server

    A shallow embedding of [packages/apollo-language-server/src/config.ts]:
    the specifier and key parsers, the [ApolloConfig] class and [loadConfig],
    together with the parts of the JavaScript runtime and of lodash's [merge]
    that they rely on. *)

From Stdlib Require Import String Ascii List ZArith Bool Arith Lia.
Import ListNotations.

Local Open Scope string_scope.
Local Open Scope list_scope.

(** ** JavaScript strings

    A string is a sequence of code units; the model keeps the code units
    below 256, which is what every literal of [config.ts] needs. *)
Module JsString.

(** [String.prototype.split] with a separator of one character. The result
    is never empty: a string without the separator is returned whole. *)
Fixpoint split (sep : ascii) (s : string) : list string :=
  match s with
  | EmptyString => [EmptyString]
  | String c rest =>
      if Ascii.eqb c sep then EmptyString :: split sep rest
      else match split sep rest with
           | [] => [String c EmptyString]
           | piece :: pieces => String c piece :: pieces
           end
  end.

(** White space and line terminators of ECMAScript in the modelled range:
    TAB, LF, VT, FF, CR, SP and NBSP. *)
Definition is_white (c : ascii) : bool :=
  let n := nat_of_ascii c in
  ((9 <=? n)%nat && (n <=? 13)%nat) || (n =? 32)%nat || (n =? 160)%nat.

Fixpoint trimStart (s : string) : string :=
  match s with
  | EmptyString => EmptyString
  | String c rest => if is_white c then trimStart rest else s
  end.

Fixpoint trimEnd (s : string) : string :=
  match s with
  | EmptyString => EmptyString
  | String c rest =>
      match trimEnd rest with
      | EmptyString => if is_white c then EmptyString else String c EmptyString
      | kept => String c kept
      end
  end.

(** [String.prototype.trim]. *)
Definition trim (s : string) : string := trimEnd (trimStart s).

(** [String.prototype.includes]. *)
Fixpoint includes (needle s : string) : bool :=
  String.prefix needle s
  || match s with
     | EmptyString => false
     | String _ rest => includes needle rest
     end.

(** Truthiness of a string: only the empty string is falsy. *)
Definition truthy (s : string) : bool :=
  match s with EmptyString => false | _ => true end.

(** The text before the first occurrence of [sep], and the text after it
    when there is one. *)
Fixpoint cut (sep : ascii) (s : string) : string * option string :=
  match s with
  | EmptyString => (EmptyString, None)
  | String c rest =>
      if Ascii.eqb c sep then (EmptyString, Some rest)
      else let '(before, after) := cut sep rest in (String c before, after)
  end.

(** Whether the character occurs in the string. *)
Fixpoint mem (c : ascii) (s : string) : bool :=
  match s with
  | EmptyString => false
  | String d rest => Ascii.eqb d c || mem c rest
  end.

End JsString.

(** ** Paths: [dirname] of node's [path] module (POSIX flavour) *)
Module Path.

Definition is_slash (c : ascii) : bool := Ascii.eqb c "/"%char.

(** The backward loop of [dirname]: [i] runs from the last index down to 1;
    trailing slashes are skipped, then the first slash after a non-slash
    ends the scan. *)
Fixpoint scan (path : string) (i : nat) (matchedSlash : bool) : option nat :=
  match i with
  | O => None
  | S j =>
      match String.get i path with
      | Some c =>
          if is_slash c
          then if matchedSlash then scan path j true else Some i
          else scan path j false
      | None => scan path j matchedSlash
      end
  end.

Definition dirname (path : string) : string :=
  if (String.length path =? 0)%nat then "."
  else
    let hasRoot :=
      match String.get 0 path with Some c => is_slash c | None => false end in
    match scan path (String.length path - 1) true with
    | None => if hasRoot then "/" else "."
    | Some e => if hasRoot && (e =? 1)%nat then "//" else String.substring 0 e path
    end.

End Path.

(** ** JavaScript values

    Configuration documents are the values a JSON, JS or TS config file can
    hold. Numbers are kept as integers and compared as [===] compares them,
    so [-0] and [0] are one value. An object is its list of own properties
    in insertion order; a key occurs at most once in it ([wf]). *)
#[local] Unset Elimination Schemes.
Inductive value : Type :=
| VUndef
| VNull
| VBool (b : bool)
| VNum (n : Z)
| VStr (s : string)
| VArr (elems : list value)
| VObj (fields : list (string * value)).
#[local] Set Elimination Schemes.

Definition props := list (string * value).

Module Js.

(** Truthiness, as [if (v)], [v && ...] and [!!v] test it. *)
Definition truthy (v : value) : bool :=
  match v with
  | VUndef | VNull => false
  | VBool b => b
  | VNum n => negb (n =? 0)%Z
  | VStr s => JsString.truthy s
  | VArr _ | VObj _ => true
  end.

Definition is_undef (v : value) : bool :=
  match v with VUndef => true | _ => false end.

(** [typeof v === "string"]. *)
Definition is_string (v : value) : bool :=
  match v with VStr _ => true | _ => false end.

Fixpoint has_key (k : string) (o : props) : bool :=
  match o with
  | [] => false
  | (k', _) :: rest => String.eqb k k' || has_key k rest
  end.

(** [o[k]]: [undefined] when the key is absent. *)
Fixpoint lookup (k : string) (o : props) : value :=
  match o with
  | [] => VUndef
  | (k', v) :: rest => if String.eqb k k' then v else lookup k rest
  end.

(** [o[k] = v]: an existing key keeps its place, a new key goes last. *)
Fixpoint set_key (k : string) (v : value) (o : props) : props :=
  match o with
  | [] => [(k, v)]
  | (k', v') :: rest =>
      if String.eqb k k' then (k, v) :: rest else (k', v') :: set_key k v rest
  end.

(** The properties an object spread [{...v}] copies. [undefined] and [null]
    spread to nothing; so do the other non-objects at the types of
    [config.ts], where a spread value is a config block or absent. *)
Definition own_props (v : value) : props :=
  match v with VObj o => o | _ => [] end.

Definition own_elems (v : value) : list value :=
  match v with VArr xs => xs | _ => [] end.

(** [v.k] for a value that is not [undefined] or [null]: a property of an
    object, [undefined] on anything else. *)
Definition get (v : value) (k : string) : value := lookup k (own_props v).

(** An object literal [{...base, k1: v1, ...}]: the listed properties are
    written over the spread ones in order. *)
Definition assign_all (base more : props) : props :=
  fold_left (fun o kv => set_key (fst kv) (snd kv) o) more base.

Definition keys (o : props) : list string := map fst o.

Fixpoint unique (ks : list string) : bool :=
  match ks with
  | [] => true
  | k :: rest => negb (existsb (String.eqb k) rest) && unique rest
  end.

(** Representation invariant: no object of the value holds a key twice. *)
Fixpoint wf (v : value) : bool :=
  match v with
  | VArr xs => forallb wf xs
  | VObj o =>
      unique (map fst o)
      && (fix all (o : props) : bool :=
            match o with
            | [] => true
            | (_, x) :: rest => wf x && all rest
            end) o
  | _ => true
  end.

End Js.

(** ** lodash: [merge] of [lodash/fp]

    [baseMerge object source] walks the keys of [source]. A source value that
    is an array or a plain object is merged recursively into the destination
    value of the same kind (or into a fresh [[]] / [{}] when the destination
    holds something else); any other source value is assigned, except that
    [undefined] never overwrites an existing key ([assignMergeValue]).
    lodash mutates [object]; here the updated object is returned.

    Outside the modelled values: a plain object merged onto an array keeps the
    array in lodash and adds named properties to it; the model starts from a
    fresh object there, as for any destination that is not a plain object. *)
Module Lodash.
Import Js.

Definition assignMergeValue (object : props) (key : string) (v : value) : props :=
  if is_undef v && has_key key object then object else set_key key v object.

Fixpoint baseMerge (object source : value) {struct source} : value :=
  match source with
  | VObj sfields =>
      VObj ((fix each (sfields : props) (o : props) {struct sfields} : props :=
               match sfields with
               | [] => o
               | (key, srcValue) :: rest =>
                   each rest
                     (match srcValue with
                      | VArr _ | VObj _ =>
                          assignMergeValue o key (baseMerge (lookup key o) srcValue)
                      | _ => assignMergeValue o key srcValue
                      end)
               end) sfields (own_props object))
  | VArr selems =>
      VArr ((fix each (selems : list value) (o : list value) {struct selems}
               : list value :=
               match selems with
               | [] => o
               | srcValue :: rest =>
                   let objValue := match o with [] => VUndef | x :: _ => x end in
                   (match srcValue with
                    | VArr _ | VObj _ => baseMerge objValue srcValue
                    | VUndef => objValue
                    | _ => srcValue
                    end) :: each rest (tl o)
               end) selems (own_elems object))
  | _ => object
  end.

(** [_.merge(object, source)]: a falsy source is skipped. *)
Definition mergeInto (object source : value) : value :=
  if truthy source then baseMerge object source else object.

(** [merge] of [lodash/fp]: the first argument is cloned by merging it into
    [{}], then the second is merged into the clone. Values of the second
    argument win. *)
Definition merge (object source : value) : value :=
  mergeInto (mergeInto (VObj []) object) source.

End Lodash.

(** ** [config.ts]: constants *)

Definition str_array (l : list string) : value := VArr (map VStr l).

(** [-0] and [0] are the same number for [===]. *)
Definition DefaultEngineStatsWindow : value :=
  VObj [("to", VNum 0); ("from", VNum (-86400))].

Definition DefaultEngineConfig : value :=
  VObj [("endpoint", VStr "https://engine-graphql.apollographql.com/api/graphql");
        ("frontend", VStr "https://engine.apollographql.com")].

Definition DefaultConfigBase : props :=
  [("includes", str_array ["src/**/*.{ts,tsx,js,jsx,graphql}"]);
   ("excludes", str_array ["**/node_modules"; "**/__tests__"])].

Definition DefaultClientConfig : value :=
  VObj (Js.assign_all DefaultConfigBase
          [("tagName", VStr "gql");
           ("clientOnlyDirectives", str_array ["connection"; "type"]);
           ("clientSchemaDirectives", str_array ["client"; "rest"]);
           ("addTypename", VBool true);
           ("statsWindow", DefaultEngineStatsWindow)]).

Definition DefaultServiceConfig : value :=
  VObj (Js.assign_all DefaultConfigBase
          [("endpoint", VObj [("url", VStr "http://localhost:4000/graphql")])]).

Definition MODULE_NAME : string := "apollo".

Definition defaultSearchPlaces : list string :=
  ["package.json"; MODULE_NAME ++ ".config.js"; MODULE_NAME ++ ".config.ts"]%string.

Definition opt_truthy (s : option string) : bool :=
  match s with Some x => JsString.truthy x | None => false end.

(** [a || b] on optional strings. *)
Definition or_else (a b : option string) : option string :=
  if opt_truthy a then a else b.

Definition of_opt (s : option string) : value :=
  match s with Some x => VStr x | None => VUndef end.

Definition getSearchPlaces (configFile : option string) : list string :=
  (match configFile with
   | Some f => if JsString.truthy f then [f] else []
   | None => []
   end) ++ defaultSearchPlaces.

(** ** [config.ts]: the two parsers *)

(** [const [id, tag] = specifier.split("@").map(x => x.trim())]: the first
    two pieces, each [undefined] when the array is too short. *)
Definition parseServiceSpecificer (specifier : string) : option string * option string :=
  let parts := map JsString.trim (JsString.split "@"%char specifier) in
  (nth_error parts 0, nth_error parts 1).

Definition getServiceFromKey (key : option string) : option string :=
  match key with
  | Some k =>
      if JsString.truthy k then
        let parts := JsString.split ":"%char k in
        match nth_error parts 0 with
        | Some type => if String.eqb type "service" then nth_error parts 1 else None
        | None => None
        end
      else None
  | None => None
  end.

Definition getServiceName (config : value) : value :=
  let service := Js.get config "service" in
  let client := Js.get config "client" in
  if Js.truthy service then Js.get service "name"
  else if Js.truthy client then
    match Js.get client "service" with
    | VStr specifier => of_opt (fst (parseServiceSpecificer specifier))
    | linked => if Js.truthy linked then Js.get linked "name" else linked
    end
  else VUndef.

(** ** [config.ts]: the [ApolloConfig] class

    A [URI] of [vscode-uri] is kept as its [fsPath]; [URI.file] wraps a
    resolved path. [URI.parse] is not modelled: [configDirURI] below takes
    it as an argument. *)
Record URI : Type := mkURI { fsPath : string }.

Definition URI_file (path : string) : URI := mkURI path.

Record ApolloConfig : Type := mkApolloConfig {
  rawConfig : value;
  configURI : option URI;
  isClient : bool;
  isService : bool;
  engine : value;
  name : value;
  service : value;
  client : value;
  _tag : option string
}.

(** [new ApolloConfig(rawConfig, configURI)]. *)
Definition newApolloConfig (raw : value) (uri : option URI) : ApolloConfig :=
  {| rawConfig := raw;
     configURI := uri;
     isService := Js.truthy (Js.get raw "service");
     isClient := Js.truthy (Js.get raw "client");
     engine := Js.get raw "engine";
     name := getServiceName raw;
     client := Js.get raw "client";
     service := Js.get raw "service";
     _tag := None |}.

(** [set tag(tag)]. *)
Definition set_tag (tag : string) (this : ApolloConfig) : ApolloConfig :=
  {| rawConfig := rawConfig this; configURI := configURI this;
     isClient := isClient this; isService := isService this;
     engine := engine this; name := name this;
     service := service this; client := client this;
     _tag := Some tag |}.

(** [get tag()]: the value read and the object after the read. The getter
    assigns no field. *)
Definition get_tag (this : ApolloConfig) : string * ApolloConfig :=
  if opt_truthy (_tag this) then
    (match _tag this with Some t => t | None => "current" end, this)
  else
    let tag := "current" in
    let tag :=
      if Js.truthy (client this) then
        match Js.get (client this) "service" with
        | VStr specifier =>
            match snd (parseServiceSpecificer specifier) with
            | Some specifierTag =>
                if JsString.truthy specifierTag then specifierTag else tag
            | None => tag
            end
        | _ => tag
        end
      else tag in
    (tag, this).

(** [setDefaults({ client, engine, service })]: the three properties are read
    off the argument ([undefined] when missing) and merged over [rawConfig]. *)
Definition setDefaults (partial : value) (this : ApolloConfig) : ApolloConfig :=
  let client' := Js.get partial "client" in
  let engine' := Js.get partial "engine" in
  let service' := Js.get partial "service" in
  let config :=
    Lodash.merge (rawConfig this)
      (VObj [("client", client'); ("engine", engine'); ("service", service')]) in
  {| rawConfig := config; configURI := configURI this;
     isClient := isClient this; isService := isService this;
     engine := if Js.truthy engine' then Js.get config "engine" else engine this;
     name := name this;
     service := Js.get config "service";
     client := Js.get config "client";
     _tag := _tag this |}.

(** ** [config.ts]: [loadConfig] *)

Inductive ProjectType : Type := Client | Service.

Record LoadConfigSettings : Type := mkSettings {
  configPath : option string;
  configFileName : option string;
  requireConfig : option bool;
  settingsName : option string;
  settingsType : option ProjectType
}.

(** What [explorer.search] resolves to when it finds a file. [config] is an
    object, as [ConfigResult] declares it. *)
Record ConfigResult : Type := mkConfigResult {
  config : value;
  filepath : string;
  isEmpty : option bool
}.

(** The collaborators of [loadConfig], by what they return: the cosmiconfig
    explorer, the [.env] file as [existsSync] and [dotenv.parse] see it
    ([None] when the file does not exist), [process.cwd()] and
    [path.resolve]. That the first two can throw instead is the matter of
    [Runtime] and [loadConfigAsync] below. *)
Record World : Type := mkWorld {
  search : list string -> option string -> option ConfigResult;
  readEnv : string -> option (list (string * string));
  cwd : string;
  resolve : list string -> string
}.

Fixpoint env_get (key : string) (env : list (string * string)) : option string :=
  match env with
  | [] => None
  | (k, v) :: rest => if String.eqb key k then Some v else env_get key rest
  end.

Inductive outcome (A : Type) : Type :=
| Threw (message : string)
| Returned (result : A).
Arguments Threw {A} message.
Arguments Returned {A} result.

Definition noConfigMessage : string :=
  "No Apollo config found for project. For more information, please refer to:
      https://bit.ly/2ByILPj".

Definition noTypeMessage : string :=
  "Unable to resolve project type. Please add either a client or service config. For more information, please refer to https://bit.ly/2ByILPj".

Definition emptyMessage (filepath : string) : string :=
  ("Apollo config found at " ++ filepath
   ++ " is empty. Please add either a client or service config")%string.

(** Lines 301-303: where the [.env] file is looked for. *)
Definition dotEnvPath (w : World) (s : LoadConfigSettings) : string :=
  if opt_truthy (configPath s)
  then resolve w [match configPath s with Some p => p | None => "" end; ".env"]
  else resolve w [cwd w; ".env"].

(** Lines 299-314: the engine override and the name read from the secret. *)
Definition readSecret (w : World) (s : LoadConfigSettings) : value * option string :=
  match readEnv w (dotEnvPath w s) with
  | Some env =>
      if opt_truthy (env_get "ENGINE_API_KEY" env) then
        (VObj [("engine", VObj [("apiKey", of_opt (env_get "ENGINE_API_KEY" env))])],
         getServiceFromKey (env_get "ENGINE_API_KEY" env))
      else (VObj [], None)
  | None => (VObj [], None)
  end.

(** Lines 316-343: the project type and the name of this pass; [None] is
    the branch that throws. *)
Definition resolveProject (type : option ProjectType) (name nameFromKey : option string)
    (loadedConfig : option ConfigResult) : option (ProjectType * option string) :=
  let resolvedName := or_else name nameFromKey in
  let clientOf (l : ConfigResult) := Js.get (config l) "client" in
  let specifierOr (l : ConfigResult) (fallback : option string) :=
    match Js.get (clientOf l) "service" with
    | VStr specifier => Some specifier
    | _ => fallback
    end in
  match type with
  | Some t =>
      Some (t,
            match loadedConfig with
            | Some l =>
                if Js.truthy (clientOf l) then specifierOr l resolvedName
                else resolvedName
            | None => resolvedName
            end)
  | None =>
      match loadedConfig with
      | Some l =>
          if Js.truthy (clientOf l) then Some (Client, specifierOr l resolvedName)
          else if Js.truthy (Js.get (config l) "service") then Some (Service, resolvedName)
          else None
      | None => None
      end
  end.

(** Lines 348-371: without a document, or with a name, the document is
    rebuilt around the block of the resolved type. *)
Definition synthesize (w : World) (s : LoadConfigSettings)
    (resolvedType : ProjectType) (resolvedName : option string)
    (loadedConfig : option ConfigResult) : ConfigResult :=
  let loaded := match loadedConfig with Some l => config l | None => VObj [] end in
  let rebuilt :=
    {| isEmpty := Some false;
       filepath := if opt_truthy (configPath s)
                   then match configPath s with Some p => p | None => "" end
                   else cwd w;
       config :=
         match resolvedType with
         | Client =>
             VObj (Js.assign_all []
                     (Js.own_props loaded
                      ++ [("client",
                           VObj (Js.assign_all []
                                   (DefaultConfigBase
                                    ++ Js.own_props (Js.get loaded "client")
                                    ++ [("service", of_opt resolvedName)])))]))
         | Service =>
             VObj (Js.assign_all []
                     (Js.own_props loaded
                      ++ [("service",
                           VObj (Js.assign_all []
                                   (DefaultConfigBase
                                    ++ Js.own_props (Js.get loaded "service")
                                    ++ [("name", of_opt resolvedName)])))]))
         end |} in
  match loadedConfig with
  | None => rebuilt
  | Some l => if opt_truthy resolvedName then rebuilt else l
  end.

(** Lines 381-386: the defaults are merged underneath the document, block by
    block; [engineConfig] is [{}] or the override read from the secret. *)
Definition applyDefaults (engineConfig config : value) : value :=
  let config :=
    if Js.truthy (Js.get config "client")
    then Lodash.merge (VObj [("client", DefaultClientConfig)]) config else config in
  let config :=
    if Js.truthy (Js.get config "service")
    then Lodash.merge (VObj [("service", DefaultServiceConfig)]) config else config in
  let config :=
    if Js.truthy engineConfig then Lodash.merge engineConfig config else config in
  Lodash.merge (VObj [("engine", DefaultEngineConfig)]) config.

Definition loadConfig (w : World) (s : LoadConfigSettings) : outcome ApolloConfig :=
  let requireConfig := match requireConfig s with Some b => b | None => false end in
  let loadedConfig := search w (getSearchPlaces (configFileName s)) (configPath s) in
  if requireConfig && match loadedConfig with Some _ => false | None => true end
  then Threw noConfigMessage
  else
    let '(engineConfig, nameFromKey) := readSecret w s in
    match resolveProject (settingsType s) (settingsName s) nameFromKey loadedConfig with
    | None => Threw noTypeMessage
    | Some (resolvedType, resolvedName) =>
        let loadedConfig := synthesize w s resolvedType resolvedName loadedConfig in
        if match isEmpty loadedConfig with Some b => b | None => false end
        then Threw (emptyMessage (filepath loadedConfig))
        else
          Returned
            (newApolloConfig (applyDefaults engineConfig (config loadedConfig))
               (Some (URI_file (resolve w [filepath loadedConfig]))))
    end.

(** ** Auxiliary definitions for the proofs *)

Module MergeAux.
Import Js Lodash.

(** What one key of the source does to the destination value under that
    key ([undefined] standing for an absent key). *)
Definition upd (objValue srcValue : value) : value :=
  match srcValue with
  | VArr _ | VObj _ => baseMerge objValue srcValue
  | VUndef => objValue
  | _ => srcValue
  end.

(** The body of the loop of [baseMerge] over the keys of a plain object. *)
Definition mergeProp (o : props) (key : string) (srcValue : value) : props :=
  match srcValue with
  | VArr _ | VObj _ => assignMergeValue o key (baseMerge (lookup key o) srcValue)
  | _ => assignMergeValue o key srcValue
  end.

Fixpoint eachProp (sfields : props) (o : props) : props :=
  match sfields with
  | [] => o
  | (key, srcValue) :: rest => eachProp rest (mergeProp o key srcValue)
  end.

(** The loop of [baseMerge] over the indices of an array. *)
Fixpoint eachElem (selems : list value) (o : list value) : list value :=
  match selems with
  | [] => o
  | srcValue :: rest => upd (hd VUndef o) srcValue :: eachElem rest (tl o)
  end.

Definition mem (k : string) (ks : list string) : bool := existsb (String.eqb k) ks.

(** The keys of [ks] that are not in [seen]. *)
Definition fresh (seen ks : list string) : list string :=
  filter (fun k => negb (mem k seen)) ks.

(** The keys of an object with keys [ks] merged into one with keys [seen]. *)
Definition front (seen ks : list string) : list string := seen ++ fresh seen ks.

End MergeAux.

(** A position inside a document: property names and array indices. *)
Inductive step : Type := Key (k : string) | Index (i : nat).

Fixpoint at_path (v : value) (path : list step) : value :=
  match path with
  | [] => v
  | Key k :: rest => at_path (Js.get v k) rest
  | Index i :: rest => at_path (nth i (Js.own_elems v) VUndef) rest
  end.

(** A value that is neither [undefined] nor a container. *)
Definition is_leaf (v : value) : bool :=
  match v with
  | VNull | VBool _ | VNum _ | VStr _ => true
  | _ => false
  end.

(** The specifier parser in the words of its description: cut at the first
    [@], trim what is before and what is after. *)
Definition specifierBySpec (specifier : string) : option string * option string :=
  let '(before, after) := JsString.cut "@"%char specifier in
  (Some (JsString.trim before), option_map JsString.trim after).

(** The text between the first and the second [sep] (up to the end when
    there is no second one). *)
Definition second_piece (sep : ascii) (s : string) : option string :=
  match snd (JsString.cut sep s) with
  | Some after => Some (fst (JsString.cut sep after))
  | None => None
  end.

Definition threw {A : Type} (r : outcome A) : bool :=
  match r with Threw _ => true | Returned _ => false end.

(** The name of this pass, as [loadConfig] resolves it. *)
Definition passName (w : World) (s : LoadConfigSettings) : option string :=
  match resolveProject (settingsType s) (settingsName s) (snd (readSecret w s))
          (search w (getSearchPlaces (configFileName s)) (configPath s)) with
  | Some (_, n) => n
  | None => None
  end.

(** A world for examples: the search finds [doc] (if any), the [.env] file
    defines [ENGINE_API_KEY] as [key] (if any), the working directory is
    [/proj]. *)
Definition exampleWorld (doc : option ConfigResult) (key : option string) : World :=
  {| search := fun _ _ => doc;
     readEnv := fun _ =>
       match key with Some k => Some [("ENGINE_API_KEY", k)] | None => None end;
     cwd := "/proj";
     resolve := fun segments => last segments "" |}.

Definition found (doc : value) : option ConfigResult :=
  Some {| config := doc; filepath := "/proj/apollo.config.js"; isEmpty := None |}.

Definition settings (name : option string) (type : option ProjectType) : LoadConfigSettings :=
  {| configPath := None; configFileName := None; requireConfig := None;
     settingsName := name; settingsType := type |}.

(** The layering of lines 381-386 on property lists: [eco] are the
    properties of the engine override, [cf] those of the document. *)
Module LayerAux.
Import Js MergeAux.

Definition layered (eco cf : props) : props :=
  let c1 :=
    if truthy (lookup "client" cf)
    then eachProp cf [("client", DefaultClientConfig)] else cf in
  let c2 :=
    if truthy (lookup "service" c1)
    then eachProp c1 [("service", DefaultServiceConfig)] else c1 in
  let c3 := eachProp c2 eco in
  eachProp c3 [("engine", DefaultEngineConfig)].

(** What the layer of block [key] does to the value [x] found under [k]. *)
Definition under (key : string) (D : value) (k : string) (x : value) : value :=
  if String.eqb k key && truthy x then upd D x else x.

(** The value under [k] after the four layers. *)
Definition layeredValue (eco : props) (k : string) (x : value) : value :=
  upd (lookup k [("engine", DefaultEngineConfig)])
    (upd (lookup k eco)
       (under "service" DefaultServiceConfig k
          (under "client" DefaultClientConfig k x))).

(** The keys the layering puts first. *)
Definition layerKeys (eco cf : props) : list string :=
  front ["engine"]
    (front (keys eco)
       (front (if truthy (lookup "service" cf) then ["service"] else [])
          (if truthy (lookup "client" cf) then ["client"] else []))).

(** The engine override [loadConfig] builds from a secret. *)
Definition engineOverride (key : string) : props :=
  [("engine", VObj [("apiKey", VStr key)])].

(** The override is [{}] or has the one key [engine]. *)
Definition overrideShape (eco : props) : Prop :=
  eco = [] \/ exists key, eco = engineOverride key.

End LayerAux.

(** ** Example documents *)

(** A client project that only overrides the excluded globs. *)
Definition docExcludes : value :=
  VObj [("client", VObj [("excludes", str_array ["build"])])].

(** A client project linked to the service [pay], variant [beta]. *)
Definition docPayBeta : value :=
  VObj [("client", VObj [("service", VStr "pay@beta")])].

(** A client block without a service, and an engine block with its own key. *)
Definition docOwnKey : value :=
  VObj [("client", VObj [("name", VStr "web")]);
        ("engine", VObj [("apiKey", VStr "service:web:from-document")])].

(** A client block without a service. *)
Definition docBareClient : value :=
  VObj [("client", VObj [("name", VStr "web")])].

(** What [loadConfig] starts from: the located document, or [{}]. *)
Definition documentOf (loadedConfig : option ConfigResult) : value :=
  match loadedConfig with Some l => config l | None => VObj [] end.

Definition located (w : World) (s : LoadConfigSettings) : option ConfigResult :=
  search w (getSearchPlaces (configFileName s)) (configPath s).

(** The situations in which [loadConfig] throws once its collaborators have
    returned. *)
Definition requiredButMissing (w : World) (s : LoadConfigSettings) : Prop :=
  requireConfig s = Some true /\ located w s = None.

Definition typeUnresolvable (w : World) (s : LoadConfigSettings) : Prop :=
  settingsType s = None
  /\ match located w s with
     | None => True
     | Some l =>
         Js.truthy (Js.get (config l) "client") = false
         /\ Js.truthy (Js.get (config l) "service") = false
     end.

Definition emptyUnnamed (w : World) (s : LoadConfigSettings) (l : ConfigResult) : Prop :=
  located w s = Some l
  /\ isEmpty l = Some true
  /\ opt_truthy (passName w s) = false.

(** The key of the block of a project type, and the key under which the
    resolved name is written into it. *)
Definition blockKey (t : ProjectType) : string :=
  match t with Client => "client" | Service => "service" end.

Definition nameKey (t : ProjectType) : string :=
  match t with Client => "service" | Service => "name" end.

(** The block lines 356-360 and 364-368 build over the block [old]. *)
Definition rebuiltBlock (t : ProjectType) (old : value) (n : option string) : value :=
  VObj (Js.assign_all []
          (DefaultConfigBase ++ Js.own_props old ++ [(nameKey t, of_opt n)])).

(** The configuration of an outcome, for examples that are known to return. *)
Definition resultOf (r : outcome ApolloConfig) : ApolloConfig :=
  match r with
  | Returned cfg => cfg
  | Threw _ => newApolloConfig VUndef None
  end.

(** A partial document that links the client to another service. *)
Definition partialCartGamma : value :=
  VObj [("client", VObj [("service", VStr "cart@gamma")])].

(** ** [config.ts]: projects and type guards *)

(** Lines 156-166: one configuration per populated block, the client one
    first; each is built from the whole document. *)
Definition projectsFromConfig (config : value) (configURI : option URI)
  : list ApolloConfig :=
  (if Js.truthy (Js.get config "client")
   then [newApolloConfig config configURI] else [])
  ++ (if Js.truthy (Js.get config "service")
      then [newApolloConfig config configURI] else []).

(** [get projects()]. *)
Definition projects (this : ApolloConfig) : list ApolloConfig :=
  projectsFromConfig (rawConfig this) (configURI this).

Definition isClientConfig (config : ApolloConfig) : bool := isClient config.

Definition isServiceConfig (config : ApolloConfig) : bool := isService config.

(** The object [setDefaults] merges over [rawConfig]. *)
Definition fragments (partial : value) : props :=
  [("client", Js.get partial "client");
   ("engine", Js.get partial "engine");
   ("service", Js.get partial "service")].

(** The flag of a project type. *)
Definition flagOf (t : ProjectType) (cfg : ApolloConfig) : bool :=
  match t with Client => isClient cfg | Service => isService cfg end.

(** A document with both blocks. *)
Definition docBoth : value :=
  VObj [("client", VObj [("service", VStr "pay@beta")]);
        ("service", VObj [("name", VStr "orders")])].

(** A service project with its own name. *)
Definition docOrders : value :=
  VObj [("service", VObj [("name", VStr "orders")])].

(** A partial document that only sets the tag name of the client. *)
Definition partialTagName : value :=
  VObj [("client", VObj [("tagName", VStr "graphql")])].

(** The directory [loadConfig] falls back to: [configPath || process.cwd()]. *)
Definition workingDir (w : World) (s : LoadConfigSettings) : string :=
  if opt_truthy (configPath s)
  then match configPath s with Some p => p | None => "" end
  else cwd w.

(** The settings with another [requireConfig]. *)
Definition withRequireConfig (b : option bool) (s : LoadConfigSettings)
  : LoadConfigSettings :=
  {| configPath := configPath s; configFileName := configFileName s;
     requireConfig := b; settingsName := settingsName s;
     settingsType := settingsType s |}.

(** ** [config.ts]: [configDirURI]

    [URI.parse] of vscode-uri is an argument: it may cut its input at [?]
    and [#], decode escapes, or throw, and nothing is assumed of it. *)
Definition configDirURI (URI_parse : string -> outcome URI) (this : ApolloConfig)
  : outcome (option URI) :=
  match configURI this with
  | Some uri =>
      if JsString.includes ".js" (fsPath uri)
      then match URI_parse (Path.dirname (fsPath uri)) with
           | Returned dir => Returned (Some dir)
           | Threw e => Threw e
           end
      else Returned (Some uri)
  | None => Returned None
  end.

(** ** [config.ts]: [loadConfig] with collaborators that fail

    The search of line 287 and the read of the [.env] file of lines 305-308
    either return or throw; [propertyError v k] is the message of the
    TypeError the engine throws for reading property [k] of [v] when [v] is
    [undefined] or [null]. *)
Record Runtime : Type := mkRuntime {
  searching : list string -> option string -> outcome (option ConfigResult);
  readingEnv : string -> outcome (option (list (string * string)));
  runtimeCwd : string;
  runtimeResolve : list string -> string;
  propertyError : value -> string -> string
}.

Definition nullish (v : value) : bool :=
  match v with VUndef | VNull => true | _ => false end.

(** The collaborators once the search and the read have returned. *)
Definition settled (r : Runtime) (loadedConfig : option ConfigResult)
    (env : option (list (string * string))) : World :=
  {| search := fun _ _ => loadedConfig;
     readEnv := fun _ => env;
     cwd := runtimeCwd r;
     resolve := runtimeResolve r |}.

Definition searched (r : Runtime) (s : LoadConfigSettings)
  : outcome (option ConfigResult) :=
  searching r (getSearchPlaces (configFileName s)) (configPath s).

Definition envRead (r : Runtime) (s : LoadConfigSettings)
  : outcome (option (list (string * string))) :=
  readingEnv r (dotEnvPath (settled r None None) s).

(** [loadConfig] as it runs: the awaited search may reject (line 287); then
    comes the test of [requireConfig] (line 291), then the read of the
    [.env] file, which may throw (lines 305-308); then the first read of
    [loadedConfig.config.client] (line 326 or 331), a TypeError when the
    result has no config; the rest is [loadConfig] on what was returned. *)
Definition loadConfigAsync (r : Runtime) (s : LoadConfigSettings)
  : outcome ApolloConfig :=
  match searched r s with
  | Threw e => Threw e
  | Returned loadedConfig =>
      if match requireConfig s with Some b => b | None => false end
         && match loadedConfig with Some _ => false | None => true end
      then Threw noConfigMessage
      else
        match envRead r s with
        | Threw e => Threw e
        | Returned env =>
            match loadedConfig with
            | Some l =>
                if nullish (config l)
                then Threw (propertyError r (config l) "client")
                else loadConfig (settled r loadedConfig env) s
            | None => loadConfig (settled r loadedConfig env) s
            end
        end
  end.

(** The situations in which [loadConfigAsync] throws. *)
Definition searchFails (r : Runtime) (s : LoadConfigSettings) : Prop :=
  exists e, searched r s = Threw e.

Definition requiredMissing (r : Runtime) (s : LoadConfigSettings) : Prop :=
  requireConfig s = Some true /\ searched r s = Returned None.

Definition secretsFail (r : Runtime) (s : LoadConfigSettings) : Prop :=
  (exists loadedConfig, searched r s = Returned loadedConfig)
  /\ exists e, envRead r s = Threw e.

Definition configMissing (r : Runtime) (s : LoadConfigSettings) : Prop :=
  exists l, searched r s = Returned (Some l) /\ nullish (config l) = true.

Definition noType (r : Runtime) (s : LoadConfigSettings) : Prop :=
  settingsType s = None
  /\ exists loadedConfig,
       searched r s = Returned loadedConfig
       /\ match loadedConfig with
          | None => True
          | Some l =>
              Js.truthy (Js.get (config l) "client") = false
              /\ Js.truthy (Js.get (config l) "service") = false
          end.

Definition flaggedEmpty (r : Runtime) (s : LoadConfigSettings) (l : ConfigResult)
  : Prop :=
  searched r s = Returned (Some l) /\ isEmpty l = Some true.

Definition emptyNoName (r : Runtime) (s : LoadConfigSettings) (l : ConfigResult)
  : Prop :=
  flaggedEmpty r s l
  /\ exists env,
       envRead r s = Returned env
       /\ opt_truthy (passName (settled r (Some l) env) s) = false.

(** A runtime for examples: the search returns [loadedConfig], there is no
    [.env] file, the working directory is [/proj]. *)
Definition exampleRuntime (loadedConfig : option ConfigResult) : Runtime :=
  {| searching := fun _ _ => Returned loadedConfig;
     readingEnv := fun _ => Returned None;
     runtimeCwd := "/proj";
     runtimeResolve := fun segments => last segments "";
     propertyError := fun _ k => ("Cannot read property '" ++ k ++ "' of undefined")%string |}.

(** A runtime whose search rejects, as for a config file that does not
    parse. *)
Definition brokenConfigRuntime : Runtime :=
  {| searching := fun _ _ => Threw "SyntaxError: Unexpected token";
     readingEnv := fun _ => Returned None;
     runtimeCwd := "/proj";
     runtimeResolve := fun segments => last segments "";
     propertyError := fun _ k => ("Cannot read property '" ++ k ++ "' of undefined")%string |}.
(** ** Facts about values and objects *)

Lemma value_ind (P : value -> Prop)
  (Hundef : P VUndef) (Hnull : P VNull)
  (Hbool : forall b, P (VBool b)) (Hnum : forall n, P (VNum n))
  (Hstr : forall s, P (VStr s))
  (Harr : forall xs, Forall P xs -> P (VArr xs))
  (Hobj : forall o, Forall (fun kv => P (snd kv)) o -> P (VObj o)) :
  forall v, P v.
Proof.
  fix IH 1.
  intros [ | | b | n | s | xs | o ];
    [exact Hundef | exact Hnull | apply Hbool | apply Hnum | apply Hstr | | ].
  - apply Harr. induction xs as [|x xs IHxs]; constructor; [apply IH|exact IHxs].
  - apply Hobj. induction o as [|[k x] o IHo]; constructor; [apply IH|exact IHo].
Qed.

Module JsFacts.
Import Js MergeAux.

Lemma eqb_sym (a b : string) : String.eqb a b = String.eqb b a.
Proof.
  destruct (String.eqb_spec a b) as [->|Hab].
  - now rewrite String.eqb_refl.
  - symmetry. apply String.eqb_neq. congruence.
Qed.

Lemma wf_obj (o : props) :
  wf (VObj o) = unique (keys o) && forallb (fun kv => wf (snd kv)) o.
Proof.
  cbn [wf]. unfold keys. f_equal.
  induction o as [|[k x] o IHo]; cbn; [reflexivity|]. now rewrite IHo.
Qed.

Lemma wf_arr (xs : list value) : wf (VArr xs) = forallb wf xs.
Proof. reflexivity. Qed.

Lemma mem_keys_has_key (k : string) (o : props) : mem k (keys o) = has_key k o.
Proof.
  induction o as [|[k' x] o IHo]; cbn; [reflexivity|]. now rewrite <- IHo.
Qed.

Lemma lookup_absent (k : string) (o : props) : has_key k o = false -> lookup k o = VUndef.
Proof.
  induction o as [|[k' x] o IHo]; cbn; [reflexivity|].
  destruct (String.eqb k k'); cbn; [discriminate|auto].
Qed.

Lemma lookup_set_key (k k' : string) (v : value) (o : props) :
  lookup k (set_key k' v o) = if String.eqb k k' then v else lookup k o.
Proof.
  induction o as [|[k1 x] o IHo]; cbn.
  - reflexivity.
  - destruct (String.eqb_spec k' k1) as [->|Hne]; cbn.
    + destruct (String.eqb k k1); reflexivity.
    + rewrite IHo. destruct (String.eqb_spec k k1) as [->|]; [|reflexivity].
      destruct (String.eqb_spec k1 k'); congruence.
Qed.

Lemma keys_set_key (k : string) (v : value) (o : props) :
  keys (set_key k v o) = if has_key k o then keys o else keys o ++ [k].
Proof.
  induction o as [|[k1 x] o IHo]; cbn; [reflexivity|].
  destruct (String.eqb_spec k k1) as [->|Hne]; cbn; [reflexivity|].
  unfold keys in *. rewrite IHo. destruct (has_key k o); reflexivity.
Qed.

Lemma set_key_same (k : string) (o : props) :
  has_key k o = true -> set_key k (lookup k o) o = o.
Proof.
  induction o as [|[k1 x] o IHo]; cbn; [discriminate|].
  destruct (String.eqb_spec k k1) as [->|Hne]; cbn; [reflexivity|].
  intros H. now rewrite IHo.
Qed.

Lemma mem_app (k : string) (a b : list string) : mem k (a ++ b) = mem k a || mem k b.
Proof. unfold mem. apply existsb_app. Qed.

Lemma mem_false_iff (k : string) (ks : list string) : mem k ks = false <-> ~ In k ks.
Proof.
  unfold mem. split.
  - intros H Hin. assert (existsb (String.eqb k) ks = true); [|congruence].
    apply existsb_exists. exists k. split; [assumption|apply String.eqb_refl].
  - intros H. destruct (existsb (String.eqb k) ks) eqn:E; [|reflexivity].
    apply existsb_exists in E as (x & Hin & Hx). apply String.eqb_eq in Hx. now subst.
Qed.

Lemma mem_true_iff (k : string) (ks : list string) : mem k ks = true <-> In k ks.
Proof.
  unfold mem. rewrite existsb_exists. split.
  - intros (x & Hin & Hx). apply String.eqb_eq in Hx. now subst.
  - intros H. exists k. split; [assumption|apply String.eqb_refl].
Qed.

Lemma unique_NoDup (ks : list string) : unique ks = true <-> NoDup ks.
Proof.
  induction ks as [|k ks IH]; cbn.
  - split; [constructor|reflexivity].
  - rewrite andb_true_iff, negb_true_iff, IH. fold (mem k ks). rewrite mem_false_iff.
    split; [intros []; now constructor|now inversion 1].
Qed.

Lemma fresh_nil (ks : list string) : fresh [] ks = ks.
Proof.
  unfold fresh. induction ks as [|k ks IH]; [reflexivity|].
  cbn [filter]. now rewrite IH.
Qed.

Lemma fresh_In (seen ks : list string) (k : string) :
  In k (fresh seen ks) <-> In k ks /\ ~ In k seen.
Proof.
  unfold fresh. rewrite filter_In, negb_true_iff, mem_false_iff. reflexivity.
Qed.

Lemma unique_merged_keys (a b : list string) :
  unique a = true -> unique b = true -> unique (a ++ fresh a b) = true.
Proof.
  rewrite !unique_NoDup. intros Ha Hb. apply NoDup_app; auto.
  - unfold fresh. now apply NoDup_filter.
  - intros k Hin Hin'. apply fresh_In in Hin'. tauto.
Qed.

(** Two objects with the same keys in the same order and the same value
    under every key are the same object. *)
Lemma props_ext (a b : props) :
  unique (keys a) = true -> keys a = keys b ->
  (forall k, lookup k a = lookup k b) -> a = b.
Proof.
  revert b. induction a as [|[k x] a IHa]; intros [|[k' y] b]; cbn; try discriminate.
  - reflexivity.
  - intros Hu Hk Hl. injection Hk as Hkk Hk. subst k'.
    apply andb_true_iff in Hu as [Hk' Hu].
    pose proof (Hl k) as Hx. rewrite String.eqb_refl in Hx. subst y.
    f_equal. apply IHa; auto. intros k0.
    specialize (Hl k0).
    destruct (String.eqb_spec k0 k) as [E|E]; [subst k0|assumption].
    apply negb_true_iff in Hk'.
    rewrite lookup_absent, lookup_absent; auto;
      rewrite <- mem_keys_has_key; unfold mem, keys; [rewrite <- Hk|]; exact Hk'.
Qed.

Lemma lookup_in (k : string) (x : value) (o : props) :
  unique (keys o) = true -> In (k, x) o -> lookup k o = x.
Proof.
  induction o as [|[k1 y] o IHo]; cbn; [tauto|].
  intros Hu [H|H].
  - injection H as -> ->. now rewrite String.eqb_refl.
  - apply andb_true_iff in Hu as [Hk Hu].
    destruct (String.eqb_spec k k1) as [->|]; [|auto].
    apply negb_true_iff in Hk. fold (mem k1 (keys o)) in Hk.
    apply mem_false_iff in Hk. exfalso. apply Hk.
    change k1 with (fst (k1, x)). now apply in_map.
Qed.

Lemma lookup_In (k : string) (o : props) :
  has_key k o = true -> In (k, lookup k o) o.
Proof.
  induction o as [|[k1 y] o IH]; cbn; [discriminate|].
  destruct (String.eqb_spec k k1) as [Heq|Hne]; [subst; now left|right; auto].
Qed.

(** A property of all the values of an object, and of [undefined], holds
    of whatever a lookup returns. *)
Lemma lookup_Forall (P : value -> Prop) (o : props) (k : string) :
  Forall (fun kv => P (snd kv)) o -> P VUndef -> P (lookup k o).
Proof.
  intros Ho Hu. destruct (has_key k o) eqn:E.
  - rewrite Forall_forall in Ho. exact (Ho _ (lookup_In k o E)).
  - now rewrite lookup_absent.
Qed.

Lemma nth_Forall (P : value -> Prop) (xs : list value) (i : nat) :
  Forall P xs -> P VUndef -> P (nth i xs VUndef).
Proof.
  intros Hxs Hu. destruct (Nat.lt_ge_cases i (length xs)) as [Hi|Hi].
  - rewrite Forall_forall in Hxs. auto using nth_In.
  - now rewrite nth_overflow.
Qed.

Lemma fresh_app (seen a b : list string) :
  fresh seen (a ++ b) = fresh seen a ++ fresh seen b.
Proof. unfold fresh. apply filter_app. Qed.

Lemma fresh_seen (seen ks : list string) : incl ks seen -> fresh seen ks = [].
Proof.
  unfold fresh. induction ks as [|k ks IH]; intros H; [reflexivity|].
  cbn [filter]. rewrite (proj2 (mem_true_iff k seen)) by (apply H; now left).
  cbn [negb]. apply IH. intros k' Hk'. apply H. now right.
Qed.

Lemma fresh_self (seen : list string) : fresh seen seen = [].
Proof. apply fresh_seen, incl_refl. Qed.

Lemma fresh_fresh (seen ks : list string) : fresh seen (fresh seen ks) = fresh seen ks.
Proof.
  unfold fresh. induction ks as [|k ks IH]; cbn; [reflexivity|].
  destruct (negb (mem k seen)) eqn:E; cbn; [rewrite E; now f_equal|exact IH].
Qed.

Lemma lookup_wf (k : string) (o : props) : wf (VObj o) = true -> wf (lookup k o) = true.
Proof.
  rewrite wf_obj. intros H. apply andb_true_iff in H as [_ H].
  induction o as [|[k1 y] o IHo]; cbn in *; [reflexivity|].
  apply andb_true_iff in H as [Hy H]. destruct (String.eqb k k1); auto.
Qed.

Lemma wf_of_lookups (o : props) :
  unique (keys o) = true -> (forall k, wf (lookup k o) = true) -> wf (VObj o) = true.
Proof.
  intros Hu Hl. rewrite wf_obj, Hu. cbn. apply forallb_forall. intros [k x] Hin.
  cbn. rewrite <- (lookup_in k x o Hu Hin). apply Hl.
Qed.

Lemma nth_wf (i : nat) (xs : list value) : wf (VArr xs) = true -> wf (nth i xs VUndef) = true.
Proof.
  rewrite wf_arr. revert i. induction xs as [|x xs IH]; intros [|i]; cbn; auto.
  - intros H. now apply andb_true_iff in H as [H _].
  - intros H. apply andb_true_iff in H as [_ H]. auto.
Qed.

End JsFacts.

(** ** Facts about [baseMerge] *)
Module MergeFacts.
Import Js Lodash MergeAux JsFacts.

Lemma baseMerge_obj (object : value) (sfields : props) :
  baseMerge object (VObj sfields) = VObj (eachProp sfields (own_props object)).
Proof. reflexivity. Qed.

Lemma baseMerge_arr (object : value) (selems : list value) :
  baseMerge object (VArr selems) = VArr (eachElem selems (own_elems object)).
Proof. reflexivity. Qed.

Lemma upd_undef_r (x : value) : upd x VUndef = x.
Proof. reflexivity. Qed.

Lemma upd_leaf (x v : value) : is_leaf v = true -> upd x v = v.
Proof. destruct v; cbn; congruence. Qed.

Lemma upd_is_undef (x v : value) : is_undef (upd x v) = true -> is_undef v = true.
Proof. destruct v; cbn; congruence. Qed.

(** One key of the source sets the destination key to the updated value. *)
Lemma mergeProp_set (o : props) (k : string) (sv : value) :
  mergeProp o k sv = set_key k (upd (lookup k o) sv) o.
Proof.
  unfold mergeProp, assignMergeValue.
  destruct sv; cbn [upd is_undef andb]; try reflexivity.
  destruct (has_key k o) eqn:E.
  - symmetry. now apply set_key_same.
  - now rewrite (lookup_absent _ _ E).
Qed.

Lemma lookup_eachProp (k : string) (sfields o : props) :
  unique (keys sfields) = true ->
  lookup k (eachProp sfields o) = upd (lookup k o) (lookup k sfields).
Proof.
  revert o. induction sfields as [|[k1 sv] rest IH]; intros o Hu; [reflexivity|].
  cbn in Hu. apply andb_true_iff in Hu as [Hk1 Hu].
  cbn [eachProp lookup]. rewrite IH by exact Hu.
  rewrite mergeProp_set, lookup_set_key.
  destruct (String.eqb_spec k k1) as [->|Hne]; [|reflexivity].
  apply negb_true_iff in Hk1. rewrite (lookup_absent k1 rest); [reflexivity|].
  now rewrite <- mem_keys_has_key.
Qed.

Lemma fresh_snoc_absent (seen ks : list string) (k : string) :
  mem k ks = false -> fresh (seen ++ [k]) ks = fresh seen ks.
Proof.
  intros Hk. unfold fresh. apply filter_ext_in. intros a Ha.
  rewrite mem_app. cbn. rewrite orb_false_r.
  destruct (String.eqb_spec a k) as [->|]; [|now rewrite orb_false_r].
  apply mem_false_iff in Hk. contradiction.
Qed.

Lemma keys_eachProp (sfields o : props) :
  unique (keys sfields) = true ->
  keys (eachProp sfields o) = keys o ++ fresh (keys o) (keys sfields).
Proof.
  revert o. induction sfields as [|[k1 sv] rest IH]; intros o Hu.
  - cbn. now rewrite app_nil_r.
  - cbn in Hu. apply andb_true_iff in Hu as [Hk1 Hu]. apply negb_true_iff in Hk1.
    cbn [eachProp]. rewrite IH by exact Hu.
    rewrite mergeProp_set, keys_set_key.
    unfold fresh at 2. cbn [keys map filter]. fold (keys rest).
    rewrite mem_keys_has_key. cbn [fst]. fold (fresh (keys o) (keys rest)).
    destruct (has_key k1 o) eqn:E; cbn [negb].
    + reflexivity.
    + rewrite fresh_snoc_absent by exact Hk1. now rewrite <- app_assoc.
Qed.

Lemma nth_eachElem (i : nat) (selems o : list value) :
  nth i (eachElem selems o) VUndef = upd (nth i o VUndef) (nth i selems VUndef).
Proof.
  revert i o. induction selems as [|sv rest IH]; intros i o.
  - cbn. now destruct i.
  - destruct i as [|i]; cbn [eachElem nth].
    + now destruct o.
    + rewrite IH. destruct o; [destruct i|]; reflexivity.
Qed.

Lemma length_eachElem (selems o : list value) :
  length (eachElem selems o) = Nat.max (length selems) (length o).
Proof.
  revert o. induction selems as [|sv rest IH]; intros o; [reflexivity|].
  cbn [eachElem length]. rewrite IH. destruct o; cbn [tl length]; lia.
Qed.

Lemma list_ext (a b : list value) :
  length a = length b -> (forall i, nth i a VUndef = nth i b VUndef) -> a = b.
Proof.
  revert b. induction a as [|x a IH]; intros [|y b]; cbn; try discriminate; auto.
  intros Hlen Hnth. f_equal.
  - exact (Hnth 0).
  - apply IH; [lia|]. intros i. exact (Hnth (S i)).
Qed.

Lemma wf_of_nths (xs : list value) :
  (forall i, wf (nth i xs VUndef) = true) -> wf (VArr xs) = true.
Proof.
  intros H. rewrite wf_arr. apply forallb_forall. intros x Hin.
  apply (In_nth _ _ VUndef) in Hin as (i & _ & <-). apply H.
Qed.

(** Merging keeps the representation invariant. *)
Lemma wf_upd (s : value) :
  wf s = true -> forall d, wf d = true -> wf (upd d s) = true.
Proof.
  induction s as [ | | b | n | str | xs IHxs | sf IHsf ] using value_ind;
    intros Hs d Hd; try assumption; try reflexivity.
  - cbn [upd]. rewrite baseMerge_arr. apply wf_of_nths. intros i.
    rewrite nth_eachElem.
    assert (Hd' : wf (nth i (own_elems d) VUndef) = true).
    { destruct d; try (now destruct i). now apply nth_wf. }
    apply (nth_Forall (fun v => wf v = true ->
             forall d, wf d = true -> wf (upd d v) = true) xs i IHxs);
      auto using nth_wf.
  - cbn [upd]. rewrite baseMerge_obj.
    assert (Hsu : unique (keys sf) = true).
    { rewrite wf_obj in Hs. now apply andb_true_iff in Hs. }
    assert (Hdo : wf (VObj (own_props d)) = true) by now destruct d.
    apply wf_of_lookups.
    + rewrite keys_eachProp by exact Hsu. apply unique_merged_keys; auto.
      rewrite wf_obj in Hdo. now apply andb_true_iff in Hdo.
    + intros k. rewrite lookup_eachProp by exact Hsu.
      apply (lookup_Forall (fun v => wf v = true ->
               forall d, wf d = true -> wf (upd d v) = true) sf k IHsf);
        auto using lookup_wf.
Qed.

Lemma wf_keys (o : props) : wf (VObj o) = true -> unique (keys o) = true.
Proof. rewrite wf_obj. intros H. now apply andb_true_iff in H. Qed.

Lemma wf_own_props (d : value) : wf d = true -> wf (VObj (own_props d)) = true.
Proof. now destruct d. Qed.

Lemma wf_own_elems (d : value) : wf d = true -> wf (VArr (own_elems d)) = true.
Proof. now destruct d. Qed.

(** Merging into nothing copies the value. *)
Lemma upd_undef_l (v : value) : wf v = true -> upd VUndef v = v.
Proof.
  induction v as [ | | b | n | str | xs IHxs | sf IHsf ] using value_ind;
    intros Hv; try reflexivity.
  - cbn [upd]. rewrite baseMerge_arr. f_equal. apply list_ext.
    + rewrite length_eachElem. cbn. lia.
    + intros i. rewrite nth_eachElem. cbn [own_elems].
      replace (nth i [] VUndef) with VUndef by now destruct i.
      apply (nth_Forall (fun v => wf v = true -> upd VUndef v = v) xs i IHxs);
        auto using nth_wf.
  - cbn [upd]. rewrite baseMerge_obj. f_equal. symmetry. apply props_ext.
    + now apply wf_keys.
    + rewrite keys_eachProp by now apply wf_keys. cbn. now rewrite fresh_nil.
    + intros k. rewrite lookup_eachProp by now apply wf_keys. cbn. symmetry.
      apply (lookup_Forall (fun v => wf v = true -> upd VUndef v = v) sf k IHsf);
        auto using lookup_wf.
Qed.

(** A value merged into itself is unchanged. *)
Lemma upd_self (d : value) : wf d = true -> upd d d = d.
Proof.
  induction d as [ | | b | n | str | xs IHxs | o IHo ] using value_ind;
    intros Hd; try reflexivity.
  - cbn [upd]. rewrite baseMerge_arr. f_equal. apply list_ext.
    + rewrite length_eachElem. cbn. lia.
    + intros i. rewrite nth_eachElem. cbn [own_elems].
      apply (nth_Forall (fun v => wf v = true -> upd v v = v) xs i IHxs);
        auto using nth_wf.
  - cbn [upd]. rewrite baseMerge_obj. f_equal. symmetry. apply props_ext.
    + now apply wf_keys.
    + rewrite keys_eachProp by now apply wf_keys. cbn [own_props].
      now rewrite fresh_self, app_nil_r.
    + intros k. rewrite lookup_eachProp by now apply wf_keys. cbn [own_props].
      symmetry.
      apply (lookup_Forall (fun v => wf v = true -> upd v v = v) o k IHo);
        auto using lookup_wf.
Qed.

(** Merging the result of a merge into the same destination again changes
    nothing. *)
Lemma upd_absorb (s : value) :
  wf s = true -> forall d, wf d = true -> upd d (upd d s) = upd d s.
Proof.
  induction s as [ | | b | n | str | xs IHxs | sf IHsf ] using value_ind;
    intros Hs d Hd; try reflexivity.
  - cbn. now apply upd_self.
  - cbn [upd]. rewrite baseMerge_arr. cbn [upd]. rewrite baseMerge_arr.
    f_equal. apply list_ext.
    + rewrite !length_eachElem. lia.
    + intros i. rewrite !nth_eachElem.
      apply (nth_Forall (fun v => wf v = true ->
               forall d, wf d = true -> upd d (upd d v) = upd d v) xs i IHxs);
        auto using nth_wf, upd_self, wf_own_elems.
  - pose proof (wf_upd _ Hs d Hd) as Hr. revert Hr.
    cbn [upd]. rewrite baseMerge_obj. intros Hr. cbn [upd]. rewrite baseMerge_obj.
    pose proof (wf_keys _ Hs) as Hsu. pose proof (wf_keys _ Hr) as Hru.
    f_equal. symmetry. apply props_ext.
    + exact Hru.
    + rewrite (keys_eachProp _ _ Hru), (keys_eachProp _ _ Hsu).
      now rewrite fresh_app, fresh_self, fresh_fresh.
    + intros k. rewrite (lookup_eachProp _ _ _ Hru), (lookup_eachProp _ _ _ Hsu).
      symmetry.
      apply (lookup_Forall (fun v => wf v = true ->
               forall d, wf d = true -> upd d (upd d v) = upd d v) sf k IHsf);
        auto using lookup_wf, upd_self, wf_own_props.
Qed.

Lemma nth_nil_undef (i : nat) : nth i [] VUndef = VUndef.
Proof. now destruct i. Qed.

Lemma at_path_undef (path : list step) : at_path VUndef path = VUndef.
Proof.
  induction path as [|[k|i] rest IH]; cbn; [reflexivity|exact IH|].
  now destruct i.
Qed.

(** A leaf of the source is found at the same place in the merged value,
    whatever the destination holds. *)
Lemma at_path_upd (path : list step) :
  forall c d v, wf c = true -> at_path c path = v -> is_leaf v = true ->
                at_path (upd d c) path = v.
Proof.
  induction path as [|[k|i] rest IH]; intros c d v Hc Hp Hv.
  - cbn in *. subst v. now rewrite upd_leaf.
  - cbn [at_path] in *. destruct c as [ | | b | n | str | xs | cf ];
      try (unfold get in Hp; cbn in Hp; rewrite at_path_undef in Hp;
           subst v; discriminate).
    cbn [upd]. rewrite baseMerge_obj. unfold get in *. cbn [own_props] in *.
    rewrite lookup_eachProp by now apply wf_keys.
    apply IH; auto using lookup_wf.
  - cbn [at_path] in *. destruct c as [ | | b | n | str | xs | cf ];
      try (cbn [own_elems] in Hp; rewrite nth_nil_undef, at_path_undef in Hp;
           subst v; discriminate).
    cbn [upd]. rewrite baseMerge_arr. cbn [own_elems] in *.
    rewrite nth_eachElem. apply IH; auto using nth_wf.
Qed.

(** [merge] of [lodash/fp] on two objects. *)
Lemma merge_objects (o cf : props) :
  wf (VObj o) = true -> merge (VObj o) (VObj cf) = VObj (eachProp cf o).
Proof.
  intros Ho. unfold merge, mergeInto. cbn [truthy].
  change (baseMerge (VObj []) (VObj o)) with (upd VUndef (VObj o)).
  rewrite upd_undef_l by exact Ho. apply baseMerge_obj.
Qed.

End MergeFacts.

(** ** Facts about the layering of defaults *)
Module LayerFacts.
Import Js Lodash MergeAux JsFacts MergeFacts LayerAux.

Lemma wf_DefaultClientConfig : wf DefaultClientConfig = true.
Proof. reflexivity. Qed.

Lemma wf_DefaultServiceConfig : wf DefaultServiceConfig = true.
Proof. reflexivity. Qed.

Lemma wf_DefaultEngineConfig : wf DefaultEngineConfig = true.
Proof. reflexivity. Qed.

Lemma wf_engineOverride (key : string) : wf (VObj (engineOverride key)) = true.
Proof. reflexivity. Qed.

Lemma wf_single (k : string) (D : value) : wf D = true -> wf (VObj [(k, D)]) = true.
Proof. intros H. cbn. now rewrite H. Qed.

Lemma unique_eachProp (sf o : props) :
  unique (keys sf) = true -> unique (keys o) = true ->
  unique (keys (eachProp sf o)) = true.
Proof.
  intros Hs Ho. rewrite keys_eachProp by exact Hs. now apply unique_merged_keys.
Qed.

Lemma wf_eachProp (sf o : props) :
  wf (VObj sf) = true -> wf (VObj o) = true -> wf (VObj (eachProp sf o)) = true.
Proof.
  intros Hs Ho. rewrite <- baseMerge_obj with (object := VObj o).
  exact (wf_upd (VObj sf) Hs (VObj o) Ho).
Qed.

Lemma applyDefaults_layered (eco cf : props) :
  wf (VObj eco) = true ->
  applyDefaults (VObj eco) (VObj cf) = VObj (layered eco cf).
Proof.
  intros He. unfold applyDefaults, layered, get. cbn [own_props truthy].
  rewrite (merge_objects [("client", DefaultClientConfig)] cf) by reflexivity.
  destruct (truthy (lookup "client" cf));
    cbn [own_props];
    rewrite ?(merge_objects [("service", DefaultServiceConfig)]) by reflexivity;
    match goal with |- context [truthy (lookup "service" ?c)] =>
      destruct (truthy (lookup "service" c)) end;
    rewrite (merge_objects eco) by exact He;
    now rewrite (merge_objects [("engine", DefaultEngineConfig)]) by reflexivity.
Qed.

Lemma lookup_single (k key : string) (D : value) :
  lookup k [(key, D)] = if String.eqb k key then D else VUndef.
Proof. reflexivity. Qed.

Lemma truthy_upd (d x : value) : truthy x = true -> truthy (upd d x) = true.
Proof.
  destruct x; cbn [upd]; intros H; rewrite ?baseMerge_arr, ?baseMerge_obj;
    solve [assumption | reflexivity | discriminate].
Qed.

Lemma falsy_upd_undef (x : value) : truthy x = false -> upd VUndef x = x.
Proof. destruct x; cbn; congruence. Qed.

Lemma wf_layered (eco cf : props) :
  wf (VObj eco) = true -> wf (VObj cf) = true -> wf (VObj (layered eco cf)) = true.
Proof.
  intros He Hc. unfold layered.
  repeat first [ apply wf_eachProp | assumption | reflexivity
               | match goal with |- context [if ?b then _ else _] => destruct b end ].
Qed.

(** The value under every key of the layered document. *)
Lemma lookup_layered (eco cf : props) (k : string) :
  wf (VObj eco) = true -> wf (VObj cf) = true ->
  lookup k (layered eco cf) = layeredValue eco k (lookup k cf).
Proof.
  intros He Hc. unfold layered, layeredValue.
  pose proof (wf_keys _ Hc) as Hcu.
  set (c1 := if truthy (lookup "client" cf) then _ else cf).
  assert (H1 : wf (VObj c1) = true).
  { subst c1. destruct (truthy (lookup "client" cf)); [|assumption].
    now apply wf_eachProp. }
  assert (L1 : forall k, lookup k c1 = under "client" DefaultClientConfig k (lookup k cf)).
  { intros k'. subst c1. unfold under. destruct (truthy (lookup "client" cf)) eqn:E.
    - rewrite lookup_eachProp by exact Hcu. rewrite lookup_single.
      destruct (String.eqb_spec k' "client") as [Heq|Hne].
      + subst k'. now rewrite E.
      + cbn [andb]. apply upd_undef_l. now apply lookup_wf.
    - destruct (String.eqb_spec k' "client") as [Heq|Hne]; [|reflexivity].
      subst k'. now rewrite E. }
  set (c2 := if truthy (lookup "service" c1) then _ else c1).
  assert (H2 : wf (VObj c2) = true).
  { subst c2. destruct (truthy (lookup "service" c1)); [|assumption].
    now apply wf_eachProp. }
  assert (L2 : forall k, lookup k c2 = under "service" DefaultServiceConfig k (lookup k c1)).
  { intros k'. subst c2. unfold under. destruct (truthy (lookup "service" c1)) eqn:E.
    - rewrite lookup_eachProp by now apply wf_keys. rewrite lookup_single.
      destruct (String.eqb_spec k' "service") as [Heq|Hne].
      + subst k'. now rewrite E.
      + cbn [andb]. apply upd_undef_l. now apply lookup_wf.
    - destruct (String.eqb_spec k' "service") as [Heq|Hne]; [|reflexivity].
      subst k'. now rewrite E. }
  assert (H3 : wf (VObj (eachProp c2 eco)) = true) by now apply wf_eachProp.
  rewrite lookup_eachProp by now apply wf_keys.
  rewrite lookup_eachProp by now apply wf_keys.
  now rewrite L2, L1.
Qed.

End LayerFacts.

(** ** The defaults merge of [loadConfig] *)
Section Defaults.
Import Js Lodash MergeAux JsFacts MergeFacts LayerAux LayerFacts.

Lemma readSecret_cases (w : World) (s : LoadConfigSettings) :
  readSecret w s = (VObj [], None)
  \/ exists key, JsString.truthy key = true
                 /\ readSecret w s
                    = (VObj (engineOverride key), getServiceFromKey (Some key)).
Proof.
  unfold readSecret. destruct (readEnv w _) as [env|]; [|now left].
  destruct (env_get "ENGINE_API_KEY" env) as [key|] eqn:E; cbn [opt_truthy];
    [|now left].
  destruct (JsString.truthy key) eqn:T; [|now left].
  right. exists key. split; [exact T|reflexivity].
Qed.

Lemma readSecret_wf (w : World) (s : LoadConfigSettings) :
  exists eco, fst (readSecret w s) = VObj eco /\ wf (VObj eco) = true
              /\ lookup "client" eco = VUndef /\ lookup "service" eco = VUndef.
Proof.
  destruct (readSecret_cases w s) as [H|(key & _ & H)]; rewrite H; cbn [fst].
  - exists []. now repeat split.
  - exists (engineOverride key). now repeat split.
Qed.

Lemma at_path_under (key : string) (D : value) (k : string) (x v : value)
    (path : list step) :
  wf x = true -> at_path x path = v -> is_leaf v = true ->
  at_path (under key D k x) path = v.
Proof.
  intros Hx Hp Hv. unfold under.
  destruct (String.eqb k key && truthy x); [|exact Hp]. now apply at_path_upd.
Qed.

Lemma wf_under (key : string) (D : value) (k : string) (x : value) :
  wf D = true -> wf x = true -> wf (under key D k x) = true.
Proof.
  intros HD Hx. unfold under. destruct (String.eqb k key && truthy x); [|exact Hx].
  now apply wf_upd.
Qed.

Lemma at_path_layeredValue (eco : props) (k : string) (x v : value)
    (path : list step) :
  wf (VObj eco) = true ->
  wf x = true -> at_path x path = v -> is_leaf v = true ->
  at_path (layeredValue eco k x) path = v.
Proof.
  intros He Hx Hp Hv. unfold layeredValue.
  assert (H1 : wf (under "client" DefaultClientConfig k x) = true)
    by now apply wf_under.
  assert (H2 : wf (under "service" DefaultServiceConfig k
                     (under "client" DefaultClientConfig k x)) = true)
    by now apply wf_under.
  apply at_path_upd; [| |exact Hv].
  - apply wf_upd; [exact H2|now apply lookup_wf].
  - apply at_path_upd; [exact H2| |exact Hv].
    apply at_path_under; [exact H1| |exact Hv].
    now apply at_path_under.
Qed.

(** The block of a project kind after the layering, when the document has
    an object there. *)
Lemma layered_block (eco cf : props) (block : string) (D : value) (bf : props) :
  wf (VObj eco) = true -> wf (VObj cf) = true ->
  lookup "client" eco = VUndef -> lookup "service" eco = VUndef ->
  In (block, D) [("client", DefaultClientConfig); ("service", DefaultServiceConfig)] ->
  lookup block cf = VObj bf ->
  lookup block (layered eco cf) = upd D (VObj bf).
Proof.
  intros He Hc Hec Hes Hin Hb. rewrite lookup_layered by assumption.
  assert (Hbf : wf (VObj bf) = true) by (rewrite <- Hb; now apply lookup_wf).
  unfold layeredValue, under. rewrite Hb.
  destruct Hin as [Heq|[Heq|[]]]; injection Heq as <- <-;
    cbn [String.eqb Ascii.eqb Bool.eqb andb truthy lookup];
    rewrite ?Hec, ?Hes;
    rewrite !upd_undef_l; auto; repeat apply wf_upd; auto.
Qed.

End Defaults.

Section DocumentWins.
Import Js Lodash MergeAux JsFacts MergeFacts LayerAux LayerFacts.

(** C1 (amended). The defaults merge of [loadConfig] keeps every value of
    the document that is neither [undefined] nor a container, at every
    depth, array elements included. Arrays, however, are merged index by
    index: under a key of the client or service block where the document
    holds an array, the resolved array is as long as the longer of the two,
    holds the document's elements at their indices, and keeps the default's
    elements beyond the document's length. *)
Theorem defaults_merge_document_wins (w : World) (s : LoadConfigSettings) (cf : props) :
  wf (VObj cf) = true ->
  let resolved := applyDefaults (fst (readSecret w s)) (VObj cf) in
  (forall path v,
      at_path (VObj cf) path = v -> is_leaf v = true -> at_path resolved path = v)
  /\ (forall block D k xs,
         In (block, D)
            [("client", DefaultClientConfig); ("service", DefaultServiceConfig)] ->
         at_path (VObj cf) [Key block; Key k] = VArr xs ->
         exists rs,
           at_path resolved [Key block; Key k] = VArr rs
           /\ length rs = Nat.max (length xs) (length (own_elems (get D k)))
           /\ (forall i, is_leaf (nth i xs VUndef) = true ->
                         nth i rs VUndef = nth i xs VUndef)
           /\ (forall i, length xs <= i ->
                         nth i rs VUndef = nth i (own_elems (get D k)) VUndef)).
Proof.
  intros Hc resolved.
  destruct (readSecret_wf w s) as (eco & He & Hew & Hec & Hes).
  assert (Hr : resolved = VObj (layered eco cf)).
  { subst resolved. rewrite He. now apply applyDefaults_layered. }
  rewrite Hr. split.
  - intros [|[k|i] path] v Hp Hv.
    + cbn in Hp. subst v. discriminate.
    + cbn [at_path] in *. unfold get in *. cbn [own_props] in *.
      rewrite lookup_layered by assumption.
      apply at_path_layeredValue; auto using lookup_wf.
    + cbn [at_path own_elems] in Hp. rewrite nth_nil_undef, at_path_undef in Hp.
      subst v. discriminate.
  - intros block D k xs Hin Hp. cbn [at_path] in *. unfold get in Hp |- *.
    cbn [own_props] in *.
    destruct (lookup block cf) as [ | | b | n | str | ys | bf ] eqn:Hb;
      try discriminate.
    rewrite (layered_block eco cf block D bf) by assumption.
    cbn [upd]. rewrite baseMerge_obj. cbn [own_props] in *.
    assert (Hbf : wf (VObj bf) = true) by (rewrite <- Hb; now apply lookup_wf).
    rewrite lookup_eachProp by now apply wf_keys.
    rewrite Hp. cbn [upd]. rewrite baseMerge_arr.
    eexists. split; [reflexivity|]. split; [apply length_eachElem|]. split.
    + intros i Hi. rewrite nth_eachElem. now apply upd_leaf.
    + intros i Hi. rewrite nth_eachElem. now rewrite (nth_overflow xs VUndef Hi).
Qed.

Lemma defaults_merge_document_wins_witness :
  wf docExcludes = true
  /\ at_path (applyDefaults (fst (readSecret (exampleWorld (found docExcludes) None)
                                    (settings None None))) docExcludes)
       [Key "client"; Key "excludes"; Index 0] = VStr "build".
Proof.
  split; [reflexivity|].
  exact (proj1 (defaults_merge_document_wins
                  (exampleWorld (found docExcludes) None) (settings None None)
                  (own_props docExcludes) eq_refl)
           [Key "client"; Key "excludes"; Index 0] (VStr "build") eq_refl eq_refl).
Defined.

(** C1, as stated, fails: the document's [excludes] array does not replace
    the default one; the second default element stays. *)
Lemma defaults_merge_array_not_replaced :
  exists cfg,
    loadConfig (exampleWorld (found docExcludes) None) (settings None None)
    = Returned cfg
    /\ at_path docExcludes [Key "client"; Key "excludes"] = str_array ["build"]
    /\ at_path (rawConfig cfg) [Key "client"; Key "excludes"]
       = str_array ["build"; "**/__tests__"]
    /\ at_path (rawConfig cfg) [Key "client"; Key "excludes"]
       <> at_path docExcludes [Key "client"; Key "excludes"].
Proof.
  eexists. split; [vm_compute; reflexivity|].
  split; [reflexivity|]. split; [vm_compute; reflexivity|].
  vm_compute. discriminate.
Qed.

End DocumentWins.

(** ** Idempotence of the layering *)
Section Idempotence.
Import Js Lodash MergeAux JsFacts MergeFacts LayerAux LayerFacts.

Lemma fresh_ext (s t ks : list string) :
  (forall k, mem k s = mem k t) -> fresh s ks = fresh t ks.
Proof. intros H. unfold fresh. apply filter_ext. intros k. now rewrite H. Qed.

Lemma fresh_twice (s t ks : list string) :
  fresh s (fresh t ks) = fresh (t ++ s) ks.
Proof.
  unfold fresh. induction ks as [|k ks IH]; [reflexivity|].
  cbn [filter]. rewrite mem_app.
  destruct (mem k t); cbn [negb orb filter]; rewrite IH; reflexivity.
Qed.

Lemma mem_fresh (k : string) (s ks : list string) :
  mem k (fresh s ks) = mem k ks && negb (mem k s).
Proof.
  destruct (mem k (fresh s ks)) eqn:E.
  - apply mem_true_iff, fresh_In in E as [H1 H2].
    apply mem_true_iff in H1. apply mem_false_iff in H2. now rewrite H1, H2.
  - symmetry. apply andb_false_iff.
    destruct (mem k ks) eqn:E1; [right|now left].
    destruct (mem k s) eqn:E2; [reflexivity|].
    apply mem_false_iff in E. exfalso. apply E, fresh_In.
    now rewrite <- mem_true_iff, <- mem_false_iff.
Qed.

Lemma front_nil (ks : list string) : front [] ks = ks.
Proof. unfold front. cbn. apply fresh_nil. Qed.

(** Two merges from the left are one merge under the merged keys. *)
Lemma front_front (s t ks : list string) :
  front s (front t ks) = front (front s t) ks.
Proof.
  unfold front. rewrite fresh_app, fresh_twice, <- app_assoc. do 2 f_equal.
  apply fresh_ext. intros k. rewrite !mem_app, mem_fresh.
  destruct (mem k s), (mem k t); reflexivity.
Qed.

Lemma front_self (s : list string) : front s s = s.
Proof. unfold front. now rewrite fresh_self, app_nil_r. Qed.

Lemma front_idem (s ks : list string) : front s (front s ks) = front s ks.
Proof. now rewrite front_front, front_self. Qed.

Lemma fresh_fresh_seen (s t : list string) : fresh s (fresh t s) = [].
Proof. apply fresh_seen. intros k Hk. now apply fresh_In in Hk. Qed.

Lemma front_round (s t : list string) : front s (front t (front s t)) = front s t.
Proof.
  unfold front. rewrite (fresh_app t), (fresh_fresh_seen t s), app_nil_r.
  now rewrite (fresh_app s), (fresh_fresh_seen s t), app_nil_r.
Qed.

Lemma front_alternate (s t ks : list string) :
  front s (front t (front s (front t ks))) = front s (front t ks).
Proof.
  rewrite (front_front s t ks), (front_front t (front s t) ks).
  now rewrite (front_front s (front t (front s t)) ks), front_round.
Qed.

Lemma keys_eachProp_front (sf o : props) :
  unique (keys sf) = true -> keys (eachProp sf o) = front (keys o) (keys sf).
Proof. apply keys_eachProp. Qed.

Lemma upd_obj (d : value) (xf : props) :
  upd d (VObj xf) = VObj (eachProp xf (own_props d)).
Proof. reflexivity. Qed.

(** Merging alternately under two objects that share no key reaches a
    fixed point after one round. *)
Lemma upd_alternate (ao bo : props) (x : value) :
  wf (VObj ao) = true -> wf (VObj bo) = true -> wf x = true ->
  (forall k, lookup k ao = VUndef \/ lookup k bo = VUndef) ->
  upd (VObj ao) (upd (VObj bo) (upd (VObj ao) (upd (VObj bo) x)))
  = upd (VObj ao) (upd (VObj bo) x).
Proof.
  intros Ha Hb Hx Hdis.
  assert (Hobj : forall xf, wf (VObj xf) = true ->
    upd (VObj ao) (upd (VObj bo) (upd (VObj ao) (upd (VObj bo) (VObj xf))))
    = upd (VObj ao) (upd (VObj bo) (VObj xf))).
  { intros xf Hxf. rewrite !upd_obj. cbn [own_props].
    set (r1 := eachProp xf bo).
    assert (H1 : wf (VObj r1) = true) by now apply wf_eachProp.
    set (r2 := eachProp r1 ao).
    assert (H2 : wf (VObj r2) = true) by now apply wf_eachProp.
    set (r3 := eachProp r2 bo).
    assert (H3 : wf (VObj r3) = true) by now apply wf_eachProp.
    f_equal. symmetry. apply props_ext.
    - now apply wf_keys.
    - subst r3 r2 r1. rewrite !keys_eachProp_front by now apply wf_keys.
      symmetry. apply front_alternate.
    - intros k. subst r3 r2 r1. rewrite !lookup_eachProp by now apply wf_keys.
      pose proof (lookup_wf k xf Hxf) as Hv.
      pose proof (lookup_wf k ao Ha) as Hak.
      pose proof (lookup_wf k bo Hb) as Hbk.
      destruct (Hdis k) as [E|E]; rewrite E in *.
      + rewrite !upd_undef_l; auto using wf_upd. symmetry. now apply upd_absorb.
      + rewrite !upd_undef_l; auto using wf_upd. symmetry. now apply upd_absorb. }
  destruct x as [ | | b | n | str | xs | xf ]; try reflexivity.
  - change (upd (VObj bo) VUndef) with (upd (VObj bo) (VObj [])). now apply Hobj.
  - change (upd (VObj bo) (VArr xs)) with (upd VUndef (VArr xs)).
    rewrite (upd_undef_l (VArr xs)) by exact Hx.
    change (upd (VObj ao) (VArr xs)) with (upd VUndef (VArr xs)).
    rewrite (upd_undef_l (VArr xs)) by exact Hx.
    change (upd (VObj bo) (VArr xs)) with (upd VUndef (VArr xs)).
    rewrite (upd_undef_l (VArr xs)) by exact Hx.
    change (upd (VObj ao) (VArr xs)) with (upd VUndef (VArr xs)).
    now apply upd_undef_l.
  - now apply Hobj.
Qed.

Ltac solve_wf :=
  repeat first [ assumption | reflexivity | apply wf_under | apply wf_upd
               | apply lookup_wf ].

Lemma under_idem (key : string) (D : value) (k : string) (x : value) :
  wf D = true -> wf x = true ->
  under key D k (under key D k x) = under key D k x.
Proof.
  intros HD Hx. unfold under.
  destruct (String.eqb k key); cbn [andb]; [|reflexivity].
  destruct (truthy x) eqn:E.
  - rewrite truthy_upd by exact E. now apply upd_absorb.
  - now rewrite E.
Qed.

Lemma truthy_under (key : string) (D : value) (k : string) (x : value) :
  truthy (under key D k x) = truthy x.
Proof.
  unfold under. destruct (String.eqb k key); cbn [andb]; [|reflexivity].
  destruct (truthy x) eqn:E; [now apply truthy_upd|exact E].
Qed.

Lemma under_other (key : string) (D : value) (k : string) (x : value) :
  String.eqb k key = false -> under key D k x = x.
Proof. intros H. unfold under. now rewrite H. Qed.

Lemma overrideShape_wf (eco : props) : overrideShape eco -> wf (VObj eco) = true.
Proof. intros [->|[key ->]]; reflexivity. Qed.

Lemma wf_layeredValue (eco : props) (k : string) (x : value) :
  wf (VObj eco) = true -> wf x = true -> wf (layeredValue eco k x) = true.
Proof. intros He Hx. unfold layeredValue. solve_wf. Qed.

Lemma layeredValue_block (eco : props) (key : string) (x : value) :
  overrideShape eco -> wf x = true ->
  In key ["client"; "service"] ->
  layeredValue eco key x
  = under "service" DefaultServiceConfig key (under "client" DefaultClientConfig key x).
Proof.
  intros Hs Hx Hin. unfold layeredValue.
  assert (Hu : wf (under "service" DefaultServiceConfig key
                     (under "client" DefaultClientConfig key x)) = true)
    by solve_wf.
  destruct Hin as [<-|[<-|[]]]; destruct Hs as [->|[sk ->]];
    cbn [lookup engineOverride String.eqb Ascii.eqb Bool.eqb];
    now rewrite !upd_undef_l by solve_wf.
Qed.

Lemma layeredValue_idem (eco : props) (k : string) (x : value) :
  overrideShape eco -> wf x = true ->
  layeredValue eco k (layeredValue eco k x) = layeredValue eco k x.
Proof.
  intros Hs Hx.
  destruct (String.eqb_spec k "client") as [Hc|Hc];
    [|destruct (String.eqb_spec k "service") as [Hsv|Hsv]].
  - subst k. rewrite !layeredValue_block; auto; try (cbn; tauto).
    + rewrite !(under_other "service") by reflexivity. now apply under_idem.
    + apply wf_layeredValue; [now apply overrideShape_wf|exact Hx].
  - subst k. rewrite !layeredValue_block; auto; try (cbn; tauto).
    + rewrite !(under_other "client") by reflexivity. now apply under_idem.
    + apply wf_layeredValue; [now apply overrideShape_wf|exact Hx].
  - unfold layeredValue.
    rewrite !(under_other "client") by now apply String.eqb_neq.
    rewrite !(under_other "service") by now apply String.eqb_neq.
    destruct Hs as [->|[sk ->]]; cbn [lookup engineOverride].
    + destruct (String.eqb k "engine").
      * rewrite !upd_undef_l by solve_wf.
        now apply upd_absorb.
      * now rewrite !upd_undef_l by solve_wf.
    + destruct (String.eqb k "engine").
      * apply upd_alternate; auto.
        intros k'. cbn [lookup].
        destruct (String.eqb_spec k' "apiKey") as [->|]; [now left|now right].
      * now rewrite !upd_undef_l by solve_wf.
Qed.

Lemma readSecret_shape (w : World) (s : LoadConfigSettings) :
  exists eco, fst (readSecret w s) = VObj eco /\ overrideShape eco.
Proof.
  destruct (readSecret_cases w s) as [H|(key & _ & H)]; rewrite H; cbn [fst].
  - exists []. split; [reflexivity|now left].
  - exists (engineOverride key). split; [reflexivity|right; now exists key].
Qed.

Lemma keys_layered (eco cf : props) :
  wf (VObj eco) = true -> wf (VObj cf) = true ->
  keys (layered eco cf) = front (layerKeys eco cf) (keys cf).
Proof.
  intros He Hc. unfold layered, layerKeys.
  set (c1 := if truthy (lookup "client" cf) then _ else cf).
  assert (K1 : keys c1
               = front (if truthy (lookup "client" cf) then ["client"] else [])
                   (keys cf)).
  { subst c1. destruct (truthy (lookup "client" cf)).
    - now rewrite keys_eachProp_front by now apply wf_keys.
    - now rewrite front_nil. }
  assert (H1 : wf (VObj c1) = true).
  { subst c1. destruct (truthy (lookup "client" cf)); [|assumption].
    now apply wf_eachProp. }
  assert (T1 : truthy (lookup "service" c1) = truthy (lookup "service" cf)).
  { subst c1. destruct (truthy (lookup "client" cf)); [|reflexivity].
    rewrite lookup_eachProp by now apply wf_keys.
    cbn [lookup String.eqb Ascii.eqb Bool.eqb].
    rewrite upd_undef_l; [reflexivity|now apply lookup_wf]. }
  rewrite T1.
  set (c2 := if truthy (lookup "service" cf) then _ else c1).
  assert (K2 : keys c2
               = front (if truthy (lookup "service" cf) then ["service"] else [])
                   (keys c1)).
  { subst c2. destruct (truthy (lookup "service" cf)).
    - now rewrite keys_eachProp_front by now apply wf_keys.
    - now rewrite front_nil. }
  assert (H2 : wf (VObj c2) = true).
  { subst c2. destruct (truthy (lookup "service" cf)); [|assumption].
    now apply wf_eachProp. }
  assert (H3 : wf (VObj (eachProp c2 eco)) = true) by now apply wf_eachProp.
  rewrite !keys_eachProp_front by now apply wf_keys.
  rewrite K2, K1. cbn [keys map fst]. now rewrite !front_front.
Qed.

Lemma layerKeys_layered (eco cf : props) :
  overrideShape eco -> wf (VObj cf) = true ->
  layerKeys eco (layered eco cf) = layerKeys eco cf.
Proof.
  intros Hs Hc. pose proof (overrideShape_wf eco Hs) as He.
  unfold layerKeys. rewrite !lookup_layered by assumption.
  rewrite !layeredValue_block; auto using lookup_wf; try (cbn; tauto).
  now rewrite !truthy_under.
Qed.

(** C9. Layering the defaults under a document that already went through
    the layering changes nothing, whatever the secret held. *)
Theorem applyDefaults_idempotent (w : World) (s : LoadConfigSettings) (cf : props) :
  wf (VObj cf) = true ->
  applyDefaults (fst (readSecret w s))
    (applyDefaults (fst (readSecret w s)) (VObj cf))
  = applyDefaults (fst (readSecret w s)) (VObj cf).
Proof.
  intros Hc. destruct (readSecret_shape w s) as (eco & -> & Hs).
  pose proof (overrideShape_wf eco Hs) as He.
  rewrite !applyDefaults_layered by exact He.
  pose proof (wf_layered eco cf He Hc) as Hl.
  f_equal. symmetry. apply props_ext.
  - now apply wf_keys.
  - rewrite (keys_layered eco (layered eco cf)) by assumption.
    rewrite layerKeys_layered by assumption.
    rewrite keys_layered by assumption. symmetry. apply front_idem.
  - intros k. rewrite (lookup_layered eco (layered eco cf)) by assumption.
    rewrite lookup_layered by assumption. symmetry.
    apply layeredValue_idem; [exact Hs|now apply lookup_wf].
Qed.

Lemma applyDefaults_idempotent_witness :
  wf docOwnKey = true
  /\ applyDefaults (VObj (engineOverride "service:cart:secret"))
       (applyDefaults (VObj (engineOverride "service:cart:secret")) docOwnKey)
     = applyDefaults (VObj (engineOverride "service:cart:secret")) docOwnKey.
Proof.
  split; [reflexivity|].
  exact (applyDefaults_idempotent
           (exampleWorld (found docOwnKey) (Some "service:cart:secret"))
           (settings None None) (own_props docOwnKey) eq_refl).
Defined.

End Idempotence.

(** ** Facts about [loadConfig] *)
Section LoadConfigFacts.
Import Js Lodash MergeAux JsFacts MergeFacts LayerAux LayerFacts.

Lemma loadConfig_unfold (w : World) (s : LoadConfigSettings) :
  loadConfig w s
  = if match requireConfig s with Some b => b | None => false end
       && match located w s with Some _ => false | None => true end
    then Threw noConfigMessage
    else
      match resolveProject (settingsType s) (settingsName s) (snd (readSecret w s))
              (located w s) with
      | None => Threw noTypeMessage
      | Some (resolvedType, resolvedName) =>
          let l := synthesize w s resolvedType resolvedName (located w s) in
          if match isEmpty l with Some b => b | None => false end
          then Threw (emptyMessage (filepath l))
          else Returned
                 (newApolloConfig (applyDefaults (fst (readSecret w s)) (config l))
                    (Some (URI_file (resolve w [filepath l]))))
      end.
Proof. unfold loadConfig, located. now destruct (readSecret w s). Qed.

Lemma set_key_absent (k : string) (v : value) (o : props) :
  has_key k o = false -> set_key k v o = o ++ [(k, v)].
Proof.
  induction o as [|[k1 y] o IH]; cbn; [reflexivity|].
  destruct (String.eqb k k1); cbn; [discriminate|]. intros H. now rewrite IH.
Qed.

Lemma assign_all_snoc (base more : props) (k : string) (v : value) :
  assign_all base (more ++ [(k, v)]) = set_key k v (assign_all base more).
Proof. unfold assign_all. now rewrite fold_left_app. Qed.

Lemma assign_all_unique (more base : props) :
  unique (keys (base ++ more)) = true -> assign_all base more = base ++ more.
Proof.
  revert base. induction more as [|[k v] more IH]; intros base Hu.
  - cbn. now rewrite app_nil_r.
  - change (assign_all base ((k, v) :: more))
      with (assign_all (set_key k v base) more).
    assert (Hk : has_key k base = false).
    { rewrite <- mem_keys_has_key. apply mem_false_iff. intros Hin.
      apply unique_NoDup in Hu. unfold keys in Hu. rewrite map_app in Hu.
      apply NoDup_remove_2 in Hu. apply Hu, in_or_app. now left. }
    rewrite (set_key_absent _ _ _ Hk), IH; rewrite <- app_assoc; [reflexivity|exact Hu].
Qed.

Lemma wf_set_key (k : string) (v : value) (o : props) :
  wf (VObj o) = true -> wf v = true -> wf (VObj (set_key k v o)) = true.
Proof.
  intros Ho Hv. apply wf_of_lookups.
  - rewrite keys_set_key. destruct (has_key k o) eqn:E; [now apply wf_keys|].
    apply unique_NoDup. apply NoDup_app.
    + apply unique_NoDup. now apply wf_keys.
    + constructor; [tauto|constructor].
    + intros k' H1 [<-|[]]. rewrite <- mem_keys_has_key in E.
      now apply mem_false_iff in E.
  - intros k'. rewrite lookup_set_key. destruct (String.eqb k' k); [exact Hv|].
    now apply lookup_wf.
Qed.

Lemma wf_assign_all (more base : props) :
  wf (VObj base) = true -> Forall (fun kv => wf (snd kv) = true) more ->
  wf (VObj (assign_all base more)) = true.
Proof.
  revert base. induction more as [|[k v] more IH]; intros base Hb Hm; [exact Hb|].
  change (assign_all base ((k, v) :: more)) with (assign_all (set_key k v base) more).
  inversion Hm; subst. apply IH; [|assumption]. now apply wf_set_key.
Qed.

Lemma wf_values (o : props) :
  wf (VObj o) = true -> Forall (fun kv => wf (snd kv) = true) o.
Proof.
  rewrite wf_obj. intros H. apply andb_true_iff in H as [_ H].
  apply Forall_forall. intros kv Hin. rewrite forallb_forall in H. now apply H.
Qed.

(** The block [synthesize] builds for the resolved type. *)
Lemma wf_block (old : value) (k : string) (n : option string) :
  wf old = true ->
  wf (VObj (assign_all [] (DefaultConfigBase ++ own_props old ++ [(k, of_opt n)])))
  = true.
Proof.
  intros Ho. apply wf_assign_all; [reflexivity|].
  apply Forall_app. split; [repeat constructor|].
  apply Forall_app. split.
  - apply wf_values. now apply wf_own_props.
  - repeat constructor. now destruct n.
Qed.

Lemma lookup_block (old : value) (k : string) (n : option string) :
  lookup k (assign_all [] (DefaultConfigBase ++ own_props old ++ [(k, of_opt n)]))
  = of_opt n.
Proof.
  rewrite !app_assoc, assign_all_snoc, lookup_set_key. now rewrite String.eqb_refl.
Qed.

(** The document [synthesize] rebuilds, when the located one is an object. *)
Lemma rebuilt_document (cf : props) (k : string) (block : value) :
  wf (VObj cf) = true ->
  assign_all [] (cf ++ [(k, block)]) = set_key k block cf.
Proof.
  intros Hc. rewrite assign_all_snoc. f_equal. apply assign_all_unique.
  now apply wf_keys.
Qed.

End LoadConfigFacts.

Section Synthesize.
Import Js Lodash MergeAux JsFacts MergeFacts LayerAux LayerFacts.

Lemma synthesize_rebuilt (w : World) (s : LoadConfigSettings) (t : ProjectType)
    (n : option string) (loaded : option ConfigResult) (cf : props) :
  documentOf loaded = VObj cf -> wf (VObj cf) = true ->
  loaded = None \/ opt_truthy n = true ->
  config (synthesize w s t n loaded)
  = VObj (set_key (blockKey t) (rebuiltBlock t (lookup (blockKey t) cf) n) cf)
  /\ isEmpty (synthesize w s t n loaded) = Some false.
Proof.
  intros Hd Hc Hn.
  assert (E : synthesize w s t n loaded
              = {| isEmpty := Some false;
                   filepath := if opt_truthy (configPath s)
                               then match configPath s with Some p => p | None => "" end
                               else cwd w;
                   config := VObj (assign_all []
                                    (cf ++ [(blockKey t,
                                             rebuiltBlock t (lookup (blockKey t) cf) n)])) |}).
  { unfold synthesize. fold (documentOf loaded). rewrite Hd. unfold get.
    cbn [own_props].
    destruct loaded as [l|]; [destruct Hn as [Hn|Hn]; [discriminate|rewrite Hn]|];
      destruct t; reflexivity. }
  rewrite E. cbn [config isEmpty]. split; [|reflexivity].
  now rewrite rebuilt_document.
Qed.

Lemma synthesize_kept (w : World) (s : LoadConfigSettings) (t : ProjectType)
    (n : option string) (l : ConfigResult) :
  opt_truthy n = false -> synthesize w s t n (Some l) = l.
Proof. intros Hn. unfold synthesize. now rewrite Hn. Qed.

Lemma wf_rebuiltBlock (t : ProjectType) (old : value) (n : option string) :
  wf old = true -> wf (rebuiltBlock t old n) = true.
Proof. apply wf_block. Qed.

(** Whatever [synthesize] does, the document handed to the defaults merge
    is a well-formed object that agrees with the located one outside the
    block of the resolved type. *)
Lemma synthesize_document (w : World) (s : LoadConfigSettings) (t : ProjectType)
    (n : option string) (loaded : option ConfigResult) (cf : props) :
  documentOf loaded = VObj cf -> wf (VObj cf) = true ->
  exists cf',
    config (synthesize w s t n loaded) = VObj cf'
    /\ wf (VObj cf') = true
    /\ (forall k, String.eqb k (blockKey t) = false -> lookup k cf' = lookup k cf).
Proof.
  intros Hd Hc.
  destruct loaded as [l|]; [destruct (opt_truthy n) eqn:Hn|].
  - destruct (synthesize_rebuilt w s t n (Some l) cf Hd Hc) as [E _]; [now right|].
    eexists. split; [exact E|]. split.
    + apply wf_set_key; [exact Hc|]. apply wf_rebuiltBlock. now apply lookup_wf.
    + intros k Hk. now rewrite lookup_set_key, Hk.
  - rewrite synthesize_kept by exact Hn. exists cf. now repeat split.
  - destruct (synthesize_rebuilt w s t n None cf Hd Hc) as [E _]; [now left|].
    eexists. split; [exact E|]. split.
    + apply wf_set_key; [exact Hc|]. apply wf_rebuiltBlock. now apply lookup_wf.
    + intros k Hk. now rewrite lookup_set_key, Hk.
Qed.

(** The engine settings of a returned configuration: the default engine
    configuration under the override under the document's engine block. *)
Lemma loadConfig_engine (w : World) (s : LoadConfigSettings) (cfg : ApolloConfig)
    (cf eco : props) :
  loadConfig w s = Returned cfg ->
  documentOf (located w s) = VObj cf -> wf (VObj cf) = true ->
  fst (readSecret w s) = VObj eco -> wf (VObj eco) = true ->
  engine cfg
  = upd DefaultEngineConfig (upd (lookup "engine" eco) (lookup "engine" cf)).
Proof.
  intros Hl Hd Hc He Hew. rewrite loadConfig_unfold in Hl.
  destruct (_ && _); [discriminate|].
  destruct (resolveProject _ _ _ _) as [[t n]|]; [|discriminate].
  cbv zeta in Hl.
  destruct (synthesize_document w s t n (located w s) cf Hd Hc)
    as (cf' & E & Hw & Hk).
  destruct (match isEmpty _ with Some b => b | None => false end); [discriminate|].
  injection Hl as <-. rewrite E, He, applyDefaults_layered by exact Hew.
  cbn [newApolloConfig engine]. unfold get. cbn [own_props].
  rewrite lookup_layered by assumption. unfold layeredValue.
  rewrite !under_other by reflexivity.
  rewrite Hk by now destruct t. reflexivity.
Qed.

End Synthesize.

(** ** The engine block of a resolved configuration *)
Section Engine.
Import Js Lodash MergeAux JsFacts MergeFacts LayerAux LayerFacts.

(** C3 (amended). In a returned configuration the document's engine block
    lies over the override read from the secret, which lies over the
    default engine configuration: a value the document gives to an engine
    key (the API key included) is kept; the secret supplies [apiKey] only
    when the document has no engine block or none with an [apiKey]; and the
    default [endpoint] and [frontend] fill the keys the document leaves
    out. *)
Theorem engine_document_over_secret_over_defaults
    (w : World) (s : LoadConfigSettings) (cfg : ApolloConfig) (cf : props)
    (key : string) :
  loadConfig w s = Returned cfg ->
  documentOf (located w s) = VObj cf -> wf (VObj cf) = true ->
  fst (readSecret w s) = VObj (engineOverride key) ->
  let e := lookup "engine" cf in
  (forall k a, get e k = a -> is_leaf a = true -> get (engine cfg) k = a)
  /\ (e = VUndef \/ (exists ef, e = VObj ef /\ lookup "apiKey" ef = VUndef) ->
      get (engine cfg) "apiKey" = VStr key)
  /\ (forall k, In k ["endpoint"; "frontend"] ->
        e = VUndef \/ (exists ef, e = VObj ef /\ lookup k ef = VUndef) ->
        get (engine cfg) k = get DefaultEngineConfig k).
Proof.
  intros Hl Hd Hc He e.
  rewrite (loadConfig_engine w s cfg cf (engineOverride key) Hl Hd Hc He eq_refl).
  change (lookup "engine" (engineOverride key)) with (VObj [("apiKey", VStr key)]).
  fold e. assert (Hwe : wf e = true) by now apply lookup_wf.
  split; [|split].
  - intros k a Hk Ha.
    change (get ?v k) with (at_path v [Key k]) in *.
    apply at_path_upd; [now apply wf_upd| |exact Ha].
    now apply at_path_upd.
  - intros [E|(ef & E & Hk)]; rewrite E in *; [reflexivity|].
    rewrite !upd_obj. unfold get. cbn [own_props].
    rewrite !lookup_eachProp;
      [|now apply wf_keys|apply wf_keys; now apply wf_eachProp].
    now rewrite Hk.
  - intros k Hin [E|(ef & E & Hk)]; rewrite E in *.
    + destruct Hin as [<-|[<-|[]]]; reflexivity.
    + rewrite !upd_obj. unfold get. cbn [own_props].
      rewrite !lookup_eachProp;
        [|now apply wf_keys|apply wf_keys; now apply wf_eachProp].
      rewrite Hk. destruct Hin as [<-|[<-|[]]]; reflexivity.
Qed.

Lemma engine_document_over_secret_over_defaults_witness :
  get (engine (resultOf (loadConfig
                           (exampleWorld (found docBareClient)
                              (Some "service:cart:secret"))
                           (settings None None)))) "apiKey"
  = VStr "service:cart:secret".
Proof.
  refine (proj1 (proj2 (engine_document_over_secret_over_defaults
                          (exampleWorld (found docBareClient)
                             (Some "service:cart:secret"))
                          (settings None None) _ (own_props docBareClient)
                          "service:cart:secret" _ eq_refl eq_refl eq_refl))
            (or_introl eq_refl)).
  vm_compute. reflexivity.
Defined.

(** C3, as stated, fails: the document's own [apiKey] is kept, the one
    read from the secret is not used. *)
Lemma secret_does_not_override_document :
  exists cfg,
    loadConfig (exampleWorld (found docOwnKey) (Some "service:cart:secret"))
      (settings None None) = Returned cfg
    /\ fst (readSecret (exampleWorld (found docOwnKey) (Some "service:cart:secret"))
              (settings None None))
       = VObj (engineOverride "service:cart:secret")
    /\ get (engine cfg) "apiKey" = VStr "service:web:from-document"
    /\ get (engine cfg) "apiKey" <> VStr "service:cart:secret".
Proof.
  eexists. split; [vm_compute; reflexivity|].
  split; [reflexivity|]. split; [vm_compute; reflexivity|].
  vm_compute. discriminate.
Qed.

End Engine.

(** ** Names: the secret, the specifier and the resolved name *)
Section Names.
Import Js Lodash MergeAux JsFacts MergeFacts LayerAux LayerFacts.

Lemma split_cut (sep : ascii) (s : string) :
  JsString.split sep s
  = fst (JsString.cut sep s)
    :: match snd (JsString.cut sep s) with
       | Some rest => JsString.split sep rest
       | None => []
       end.
Proof.
  induction s as [|c s IH]; cbn [JsString.split JsString.cut]; [reflexivity|].
  destruct (Ascii.eqb c sep); [reflexivity|].
  rewrite IH. now destruct (JsString.cut sep s) as [before [after|]].
Qed.

Lemma split_first (sep : ascii) (s : string) :
  nth_error (JsString.split sep s) 0 = Some (fst (JsString.cut sep s)).
Proof. now rewrite split_cut. Qed.

Lemma split_second (sep : ascii) (s : string) :
  nth_error (JsString.split sep s) 1 = second_piece sep s.
Proof.
  rewrite split_cut. unfold second_piece.
  destruct (snd (JsString.cut sep s)) as [rest|]; [|reflexivity].
  cbn [nth_error]. apply split_first.
Qed.

Lemma cut_absent (sep : ascii) (s : string) :
  JsString.mem sep s = false -> JsString.cut sep s = (s, None).
Proof.
  induction s as [|c s IH]; cbn [JsString.mem JsString.cut]; [reflexivity|].
  intros H. apply orb_false_iff in H as [Hc Hs]. now rewrite Hc, IH.
Qed.

Lemma cut_first (sep : ascii) (a b : string) :
  JsString.mem sep a = false ->
  JsString.cut sep (a ++ String sep b) = (a, Some b).
Proof.
  induction a as [|c a IH]; cbn [JsString.mem JsString.cut String.append].
  - now rewrite Ascii.eqb_refl.
  - intros H. apply orb_false_iff in H as [Hc Ha]. now rewrite Hc, IH.
Qed.

Lemma getServiceFromKey_service (name : string) :
  JsString.mem ":"%char name = false ->
  getServiceFromKey (Some ("service:" ++ name)%string) = Some name.
Proof.
  intros H. unfold getServiceFromKey. cbn [JsString.truthy String.append].
  rewrite split_first, split_second. unfold second_piece.
  cbn [JsString.cut Ascii.eqb Bool.eqb fst snd String.eqb].
  now rewrite cut_absent.
Qed.

Lemma getServiceFromKey_other (key : string) :
  fst (JsString.cut ":"%char key) <> "service" ->
  getServiceFromKey (Some key) = None.
Proof.
  intros H. unfold getServiceFromKey.
  destruct (JsString.truthy key); [|reflexivity].
  rewrite split_first. now apply String.eqb_neq in H as ->.
Qed.

(** The name of a configuration whose layered document has a falsy
    [service] and a client block linked to [n]. *)
Lemma getServiceName_linked_client (eco cf blk : props) (n : string) :
  overrideShape eco -> wf (VObj cf) = true ->
  truthy (lookup "service" cf) = false ->
  lookup "client" cf = VObj blk -> lookup "service" blk = VStr n ->
  let resolved := VObj (layered eco cf) in
  getServiceName resolved = of_opt (fst (parseServiceSpecificer n))
  /\ truthy (get resolved "client") = true
  /\ truthy (get resolved "service") = false.
Proof.
  intros Hs Hc Hsv Hcl Hn resolved.
  pose proof (overrideShape_wf eco Hs) as He.
  assert (Hblk : wf (VObj blk) = true) by (rewrite <- Hcl; now apply lookup_wf).
  assert (S1 : get resolved "service" = lookup "service" cf).
  { unfold resolved, get. cbn [own_props]. rewrite lookup_layered by assumption.
    rewrite layeredValue_block; auto using lookup_wf; [|cbn; tauto].
    rewrite (under_other "client") by reflexivity.
    unfold under. now rewrite Hsv, andb_false_r. }
  assert (C1 : get resolved "client" = upd DefaultClientConfig (VObj blk)).
  { unfold resolved, get. cbn [own_props].
    apply layered_block; auto; try (destruct Hs as [->|[k ->]]; reflexivity).
    now left. }
  unfold getServiceName. rewrite S1, Hsv, C1.
  assert (L : get (upd DefaultClientConfig (VObj blk)) "service" = VStr n).
  { rewrite upd_obj. unfold get. cbn [own_props].
    rewrite lookup_eachProp by now apply wf_keys. now rewrite Hn. }
  rewrite L. now rewrite upd_obj.
Qed.

(** A located object document without a truthy [service] block, resolved
    as a client with the name [n]. *)
Lemma loadConfig_named_client (w : World) (s : LoadConfigSettings)
    (l : ConfigResult) (cf : props) (n : string) :
  located w s = Some l -> config l = VObj cf -> wf (VObj cf) = true ->
  resolveProject (settingsType s) (settingsName s) (snd (readSecret w s)) (Some l)
  = Some (Client, Some n) ->
  JsString.truthy n = true -> truthy (lookup "service" cf) = false ->
  exists cfg,
    loadConfig w s = Returned cfg
    /\ name cfg = of_opt (fst (parseServiceSpecificer n))
    /\ isClient cfg = true /\ isService cfg = false.
Proof.
  intros Hl Hd Hc Hr Hn Hsv.
  rewrite loadConfig_unfold, Hl, Hr, andb_false_r. cbv zeta.
  destruct (synthesize_rebuilt w s Client (Some n) (Some l) cf Hd Hc) as [E1 E2];
    [now right|].
  rewrite E2, E1. eexists. split; [reflexivity|].
  destruct (readSecret_shape w s) as (eco & -> & Hs).
  rewrite applyDefaults_layered by now apply overrideShape_wf.
  cbn [blockKey nameKey] in *.
  set (old := lookup "client" cf).
  assert (Ho : wf old = true) by now apply lookup_wf.
  pose proof (wf_rebuiltBlock Client old (Some n) Ho) as Hb.
  destruct (getServiceName_linked_client eco
              (set_key "client" (rebuiltBlock Client old (Some n)) cf)
              (assign_all [] (DefaultConfigBase ++ own_props old
                              ++ [("service", of_opt (Some n))])) n)
    as (N & C & S); auto.
  - now apply wf_set_key.
  - now rewrite lookup_set_key.
  - now rewrite lookup_set_key.
  - apply (lookup_block old "service" (Some n)).
Qed.

End Names.

Section NameClaims.
Import Js Lodash MergeAux JsFacts MergeFacts LayerAux LayerFacts.

(** C7. [getServiceFromKey] returns the name of a secret [service:<name>]
    and nothing when the text before the first colon is not exactly
    [service]; and with [ENGINE_API_KEY = "service:cart"] in the secrets
    file, no name and no type from the caller, and a document that has a
    client block without a service string and no service block,
    [loadConfig] returns a client configuration named [cart]. *)
Theorem secret_names_the_client :
  (forall name, JsString.mem ":"%char name = false ->
                getServiceFromKey (Some ("service:" ++ name)%string) = Some name)
  /\ (forall key, fst (JsString.cut ":"%char key) <> "service" ->
                  getServiceFromKey (Some key) = None)
  /\ (forall w s l cf blk env,
         readEnv w (dotEnvPath w s) = Some env ->
         env_get "ENGINE_API_KEY" env = Some "service:cart" ->
         opt_truthy (settingsName s) = false -> settingsType s = None ->
         located w s = Some l -> config l = VObj cf -> wf (VObj cf) = true ->
         lookup "client" cf = VObj blk ->
         is_string (lookup "service" blk) = false ->
         truthy (lookup "service" cf) = false ->
         exists cfg,
           loadConfig w s = Returned cfg
           /\ name cfg = VStr "cart" /\ isClient cfg = true).
Proof.
  split; [exact getServiceFromKey_service|].
  split; [exact getServiceFromKey_other|].
  intros w s l cf blk env Henv Hkey Hname Htype Hl Hd Hc Hblk Hstr Hsv.
  destruct (loadConfig_named_client w s l cf "cart" Hl Hd Hc) as (cfg & R & N & C & _);
    auto.
  - unfold readSecret. rewrite Henv, Hkey. cbn [opt_truthy JsString.truthy snd].
    rewrite Htype. unfold resolveProject, or_else. rewrite Hname, Hd.
    unfold get. cbn [own_props]. rewrite Hblk. cbn [truthy own_props].
    destruct (lookup "service" blk); try discriminate; reflexivity.
  - exists cfg. now repeat split.
Qed.

Lemma secret_names_the_client_witness :
  getServiceFromKey (Some "service:cart") = Some "cart"
  /\ getServiceFromKey (Some "user:cart") = None
  /\ exists cfg,
       loadConfig (exampleWorld (found docBareClient) (Some "service:cart"))
         (settings None None) = Returned cfg
       /\ name cfg = VStr "cart" /\ isClient cfg = true.
Proof.
  destruct secret_names_the_client as (H1 & H2 & H3).
  split; [exact (H1 "cart" eq_refl)|].
  split; [apply (H2 "user:cart"); discriminate|].
  exact (H3 (exampleWorld (found docBareClient) (Some "service:cart"))
            (settings None None)
            {| config := docBareClient; filepath := "/proj/apollo.config.js";
               isEmpty := None |}
            (own_props docBareClient) [("name", VStr "web")]
            [("ENGINE_API_KEY", "service:cart")]
            eq_refl eq_refl eq_refl eq_refl eq_refl eq_refl eq_refl eq_refl eq_refl
            eq_refl).
Defined.

(** C2 (amended). With a type from the caller and a located document whose
    client block links its service by a string, [loadConfig] resolves the
    supplied type, and the whole specifier string is the name of the pass,
    whatever name the caller or the secret gave. For the type [client], a
    non-empty specifier and a document without a service block, the
    returned configuration is a client one whose name is the id part of the
    specifier. *)
Theorem specifier_names_the_pass (w : World) (s : LoadConfigSettings)
    (l : ConfigResult) (t : ProjectType) (specifier : string) :
  located w s = Some l -> settingsType s = Some t ->
  get (get (config l) "client") "service" = VStr specifier ->
  resolveProject (settingsType s) (settingsName s) (snd (readSecret w s)) (located w s)
  = Some (t, Some specifier)
  /\ passName w s = Some specifier
  /\ (forall cf,
         t = Client -> config l = VObj cf -> wf (VObj cf) = true ->
         JsString.truthy specifier = true -> truthy (lookup "service" cf) = false ->
         exists cfg,
           loadConfig w s = Returned cfg
           /\ isClient cfg = true
           /\ name cfg = of_opt (fst (parseServiceSpecificer specifier))).
Proof.
  intros Hl Ht Hsp.
  assert (R : resolveProject (settingsType s) (settingsName s)
                (snd (readSecret w s)) (located w s) = Some (t, Some specifier)).
  { rewrite Hl, Ht. unfold resolveProject. rewrite Hsp.
    destruct (get (config l) "client") as [ | | b | n | str | xs | blk ];
      try discriminate; reflexivity. }
  split; [exact R|]. split.
  - unfold passName. fold (located w s). now rewrite R.
  - intros cf -> Hd Hc Hn Hsv. rewrite Hl in R.
    destruct (loadConfig_named_client w s l cf specifier Hl Hd Hc R Hn Hsv)
      as (cfg & E & N & C & _).
    exists cfg. now repeat split.
Qed.

Lemma specifier_names_the_pass_witness :
  passName (exampleWorld (found docPayBeta) (Some "service:cart"))
    (settings (Some "checkout") (Some Client)) = Some "pay@beta"
  /\ exists cfg,
       loadConfig (exampleWorld (found docPayBeta) (Some "service:cart"))
         (settings (Some "checkout") (Some Client)) = Returned cfg
       /\ isClient cfg = true
       /\ name cfg = of_opt (fst (parseServiceSpecificer "pay@beta")).
Proof.
  destruct (specifier_names_the_pass
              (exampleWorld (found docPayBeta) (Some "service:cart"))
              (settings (Some "checkout") (Some Client))
              {| config := docPayBeta; filepath := "/proj/apollo.config.js";
                 isEmpty := None |}
              Client "pay@beta" eq_refl eq_refl eq_refl) as (_ & P & H).
  split; [exact P|].
  exact (H (own_props docPayBeta) eq_refl eq_refl eq_refl eq_refl eq_refl).
Defined.

(** C2, as stated, fails: with the type [service] from the caller, the
    name of the returned configuration is the whole specifier, not its id
    part. *)
Lemma specifier_whole_for_service :
  exists cfg,
    loadConfig (exampleWorld (found docPayBeta) None) (settings None (Some Service))
    = Returned cfg
    /\ fst (parseServiceSpecificer "pay@beta") = Some "pay"
    /\ name cfg = VStr "pay@beta"
    /\ name cfg <> VStr "pay".
Proof.
  eexists. split; [vm_compute; reflexivity|].
  split; [reflexivity|]. split; [vm_compute; reflexivity|].
  vm_compute. discriminate.
Qed.

End NameClaims.

(** ** When [loadConfig] throws *)
Section Failures.
Import Js.

Lemma synthesize_isEmpty (w : World) (s : LoadConfigSettings) (t : ProjectType)
    (n : option string) (loaded : option ConfigResult) :
  isEmpty (synthesize w s t n loaded)
  = match loaded with
    | Some l => if opt_truthy n then Some false else isEmpty l
    | None => Some false
    end.
Proof.
  unfold synthesize. destruct loaded as [l|]; [|reflexivity].
  now destruct (opt_truthy n).
Qed.

Lemma resolveProject_none (type : option ProjectType) (name nameFromKey : option string)
    (loaded : option ConfigResult) :
  resolveProject type name nameFromKey loaded = None
  <-> type = None
      /\ match loaded with
         | None => True
         | Some l =>
             truthy (get (config l) "client") = false
             /\ truthy (get (config l) "service") = false
         end.
Proof.
  unfold resolveProject. destruct type as [t|]; [now split; [|intros []]|].
  destruct loaded as [l|]; [|tauto].
  destruct (truthy (get (config l) "client"));
    [split; [discriminate|intros (_ & H & _); discriminate]|].
  destruct (truthy (get (config l) "service"));
    [split; [discriminate|intros (_ & _ & H); discriminate]|].
  tauto.
Qed.

(** Once the collaborators have returned, [loadConfig] throws in exactly
    these situations: a document is required and none is located; neither
    the caller nor the document gives a type; or the located result is
    flagged empty and no name is resolved for the pass. *)
Lemma loadConfig_throws_settled (w : World) (s : LoadConfigSettings) :
  (threw (loadConfig w s) = true
   <-> requiredButMissing w s \/ typeUnresolvable w s
       \/ exists l, emptyUnnamed w s l)
  /\ (requiredButMissing w s -> loadConfig w s = Threw noConfigMessage)
  /\ (~ requiredButMissing w s -> typeUnresolvable w s ->
      loadConfig w s = Threw noTypeMessage)
  /\ (forall l, emptyUnnamed w s l -> ~ typeUnresolvable w s ->
                loadConfig w s = Threw (emptyMessage (filepath l))).
Proof.
  pose proof (resolveProject_none (settingsType s) (settingsName s)
                (snd (readSecret w s)) (located w s)) as Hnone.
  fold (typeUnresolvable w s) in Hnone.
  unfold requiredButMissing, emptyUnnamed, passName. fold (located w s).
  rewrite loadConfig_unfold.
  destruct (resolveProject _ _ _ _) as [[t n]|] eqn:R.
  - assert (Hty : ~ typeUnresolvable w s) by (intros H; apply Hnone in H; discriminate).
    cbv zeta. rewrite synthesize_isEmpty.
    destruct (located w s) as [l|] eqn:L.
    + rewrite andb_false_r.
      assert (Hkeep : opt_truthy n = false -> synthesize w s t n (Some l) = l)
        by apply synthesize_kept.
      destruct (opt_truthy n) eqn:N.
      * cbn [threw]. repeat split; try tauto; try discriminate.
        -- intros [[_ H]|[H|(l' & _ & _ & H)]]; [discriminate|tauto|discriminate].
        -- intros [_ H]; discriminate.
        -- intros l' (_ & _ & H); discriminate.
      * rewrite Hkeep by reflexivity.
        destruct (isEmpty l) as [[|]|] eqn:E; cbn [threw].
        -- repeat split; try tauto.
           ++ intros _. right. right. exists l. now repeat split.
           ++ intros [_ H]; discriminate.
           ++ intros l' (H & _ & _) _. now injection H as <-.
        -- repeat split; try tauto; try discriminate.
           ++ intros [[_ H]|[H|(l' & H & H' & _)]]; [discriminate|tauto|].
              injection H as <-. congruence.
           ++ intros [_ H]; discriminate.
           ++ intros l' (H & H' & _). injection H as <-. congruence.
        -- repeat split; try tauto; try discriminate.
           ++ intros [[_ H]|[H|(l' & H & H' & _)]]; [discriminate|tauto|].
              injection H as <-. congruence.
           ++ intros [_ H]; discriminate.
           ++ intros l' (H & H' & _). injection H as <-. congruence.
    + rewrite andb_true_r.
      destruct (requireConfig s) as [[|]|]; cbn [threw];
        repeat split; try tauto; try discriminate;
        try (intros [[H _]|[H|(l' & H & _)]]; [discriminate|tauto|discriminate]);
        try (intros [H _]; discriminate);
        try (intros l' (H & _); discriminate).
  - assert (Hty : typeUnresolvable w s) by now apply Hnone.
    destruct (_ && _) eqn:A; cbn [threw].
    + apply andb_true_iff in A as [A1 A2].
      assert (HA : requireConfig s = Some true /\ located w s = None).
      { destruct (requireConfig s) as [[|]|]; try discriminate.
        now destruct (located w s). }
      repeat split; try tauto.
    + assert (HA : ~ (requireConfig s = Some true /\ located w s = None)).
      { intros [H1 H2]. now rewrite H1, H2 in A. }
      repeat split; try tauto.
Qed.


Lemma settled_located (r : Runtime) (s : LoadConfigSettings)
    (loaded : option ConfigResult) (env : option (list (string * string))) :
  located (settled r loaded env) s = loaded.
Proof. reflexivity. Qed.

Ltac eight :=
  split; [split|split; [|split; [|split; [|split; [|split]]]]].

(** The five ways [loadConfigAsync] goes. *)
Lemma loadConfigAsync_cases (r : Runtime) (s : LoadConfigSettings) :
  (exists e, searched r s = Threw e /\ loadConfigAsync r s = Threw e)
  \/ (searched r s = Returned None /\ requireConfig s = Some true
      /\ loadConfigAsync r s = Threw noConfigMessage)
  \/ (exists loaded e,
        searched r s = Returned loaded
        /\ ~ (requireConfig s = Some true /\ loaded = None)
        /\ envRead r s = Threw e /\ loadConfigAsync r s = Threw e)
  \/ (exists l env,
        searched r s = Returned (Some l) /\ envRead r s = Returned env
        /\ nullish (config l) = true
        /\ loadConfigAsync r s = Threw (propertyError r (config l) "client"))
  \/ (exists loaded env,
        searched r s = Returned loaded
        /\ ~ (requireConfig s = Some true /\ loaded = None)
        /\ envRead r s = Returned env
        /\ (forall l, loaded = Some l -> nullish (config l) = false)
        /\ loadConfigAsync r s = loadConfig (settled r loaded env) s).
Proof.
  unfold loadConfigAsync.
  destruct (searched r s) as [e|loaded] eqn:S; [left; now exists e|right].
  destruct (match requireConfig s with Some b => b | None => false end
            && match loaded with Some _ => false | None => true end) eqn:Q.
  - left. apply andb_true_iff in Q as [Q1 Q2].
    destruct loaded; [discriminate|].
    destruct (requireConfig s) as [[|]|]; try discriminate. now repeat split.
  - right.
    assert (NQ : ~ (requireConfig s = Some true /\ loaded = None)).
    { intros [H1 H2]. now rewrite H1, H2 in Q. }
    destruct (envRead r s) as [e|env] eqn:E.
    + left. exists loaded, e. now repeat split.
    + right. destruct loaded as [l|].
      * destruct (nullish (config l)) eqn:N.
        -- left. exists l, env. now repeat split.
        -- right. exists (Some l), env. repeat split; auto.
           intros l' H. now injection H as <-.
      * right. exists None, env. repeat split; auto. discriminate.
Qed.




End Failures.

(** ** The [ApolloConfig] class *)
Section ConfigModel.
Import Js.

(** C5 (amended). Reading [tag] returns the assigned tag when a non-empty
    one was assigned; otherwise the non-empty tag embedded in the client's
    service specifier, when the service is a string; otherwise [current].
    The read stores nothing: the object is the same after it, so a later
    read follows the client block as it then is. *)
Theorem tag_read (this : ApolloConfig) :
  (forall t, JsString.truthy t = true -> fst (get_tag (set_tag t this)) = t)
  /\ (forall specifier embedded,
         opt_truthy (_tag this) = false ->
         get (client this) "service" = VStr specifier ->
         snd (parseServiceSpecificer specifier) = Some embedded ->
         JsString.truthy embedded = true ->
         fst (get_tag this) = embedded)
  /\ (opt_truthy (_tag this) = false ->
      is_string (get (client this) "service") = false
      \/ (exists specifier,
             get (client this) "service" = VStr specifier
             /\ match snd (parseServiceSpecificer specifier) with
                | Some embedded => JsString.truthy embedded = false
                | None => True
                end) ->
      fst (get_tag this) = "current")
  /\ snd (get_tag this) = this.
Proof.
  split; [|split; [|split]].
  - intros t Ht. unfold get_tag, set_tag. cbn [_tag opt_truthy]. now rewrite Ht.
  - intros specifier embedded Hu Hs He Ht. unfold get_tag. rewrite Hu.
    assert (Hc : truthy (client this) = true).
    { destruct (client this); try discriminate; reflexivity. }
    cbn [fst]. now rewrite Hc, Hs, He, Ht.
  - intros Hu H. unfold get_tag. rewrite Hu. cbn [fst].
    destruct (truthy (client this)); [|reflexivity].
    destruct H as [H|(specifier & Hs & H)].
    + destruct (get (client this) "service"); try discriminate; reflexivity.
    + rewrite Hs. destruct (snd (parseServiceSpecificer specifier)); [|reflexivity].
      now rewrite H.
  - unfold get_tag. now destruct (opt_truthy (_tag this)).
Qed.

Lemma tag_read_witness :
  fst (get_tag (set_tag "beta" (newApolloConfig docBareClient None))) = "beta"
  /\ fst (get_tag (newApolloConfig docPayBeta None)) = "beta"
  /\ fst (get_tag (newApolloConfig docBareClient None)) = "current".
Proof.
  split; [|split].
  - exact (proj1 (tag_read (newApolloConfig docBareClient None)) "beta" eq_refl).
  - exact (proj1 (proj2 (tag_read (newApolloConfig docPayBeta None)))
             "pay@beta" "beta" eq_refl eq_refl eq_refl eq_refl).
  - exact (proj1 (proj2 (proj2 (tag_read (newApolloConfig docBareClient None))))
             eq_refl (or_introl eq_refl)).
Defined.

(** C5, as stated, fails: the derived tag is not cached. After a first
    read, a change of the client block changes what the next read
    returns. *)
Lemma tag_not_cached :
  let first := get_tag (newApolloConfig docPayBeta None) in
  let second := get_tag (setDefaults partialCartGamma (snd first)) in
  fst first = "beta" /\ fst second = "gamma" /\ fst second <> fst first.
Proof.
  split; [reflexivity|]. split; [vm_compute; reflexivity|].
  vm_compute. discriminate.
Qed.

Lemma includes_append (needle a b : string) :
  JsString.includes needle b = true ->
  JsString.includes needle (a ++ b)%string = true.
Proof.
  intros H. induction a as [|c a IH]; [exact H|].
  cbn [String.append JsString.includes]. rewrite IH. apply orb_true_r.
Qed.

Lemma get_in_range (c0 : ascii) (s : string) (k : nat) :
  k < String.length s ->
  exists c, String.get k s = Some c
            /\ (JsString.mem c0 s = false -> Ascii.eqb c c0 = false).
Proof.
  revert k. induction s as [|d s IH]; intros k Hk; cbn in Hk; [lia|].
  destruct k as [|k]; cbn [String.get JsString.mem].
  - exists d. split; [reflexivity|]. intros H. now apply orb_false_iff in H.
  - destruct (IH k) as (c & G & M); [lia|]. exists c. split; [exact G|].
    intros H. apply orb_false_iff in H. tauto.
Qed.

Lemma length_append (a b : string) :
  String.length (a ++ b) = String.length a + String.length b.
Proof. induction a as [|c a IH]; cbn; [reflexivity|now rewrite IH]. Qed.

Lemma substring_append (a b : string) :
  String.substring 0 (String.length a) (a ++ b) = a.
Proof.
  induction a as [|c a IH]; cbn [String.length String.append String.substring].
  - now destruct b.
  - now rewrite IH.
Qed.

(** The backward scan of [dirname] over [dir/base] stops at the slash. *)
Lemma scan_base (dir base : string) (k : nat) (b : bool) :
  dir <> EmptyString -> JsString.mem "/"%char base = false ->
  k < String.length base ->
  Path.scan (dir ++ String "/"%char base) (S k + String.length dir) b
  = Some (String.length dir).
Proof.
  intros Hd Hb. revert b.
  assert (Hslash :
             Path.scan (dir ++ String "/"%char base) (String.length dir) false
             = Some (String.length dir)).
  { pose proof (String.append_correct2 dir (String "/"%char base) 0) as G.
    cbn [String.get Nat.add] in G.
    destruct (String.length dir) as [|n] eqn:L; [now destruct dir|].
    cbn [Path.scan]. rewrite <- G. unfold Path.is_slash.
    now rewrite Ascii.eqb_refl. }
  induction k as [|k IH]; intros b Hk.
  - pose proof (String.append_correct2 dir (String "/"%char base) 1) as G.
    cbn [String.get] in G.
    destruct (get_in_range "/"%char base 0 Hk) as (c & G0 & M).
    change (1 + String.length dir) with (S (String.length dir)) in G.
    change (1 + String.length dir) with (S (String.length dir)).
    cbn [Path.scan]. rewrite <- G, G0. unfold Path.is_slash at 1.
    rewrite (M Hb). apply Hslash.
  - pose proof (String.append_correct2 dir (String "/"%char base) (S (S k))) as G.
    cbn [String.get] in G.
    destruct (get_in_range "/"%char base (S k) Hk) as (c & G0 & M).
    change (S (S k) + String.length dir) with (S (S k + String.length dir)) in G.
    change (S (S k) + String.length dir) with (S (S k + String.length dir)).
    cbn [Path.scan]. rewrite <- G, G0. unfold Path.is_slash at 1.
    rewrite (M Hb). apply IH. lia.
Qed.

(** [dirname] of [dir/base] is [dir], unless [dir] is empty or the root. *)
Lemma dirname_parent (dir base : string) :
  dir <> EmptyString -> dir <> "/" -> base <> EmptyString ->
  JsString.mem "/"%char base = false ->
  Path.dirname (dir ++ String "/"%char base) = dir.
Proof.
  intros Hd Hr Hb Hm. unfold Path.dirname.
  rewrite length_append. cbn [String.length].
  replace (String.length dir + S (String.length base) =? 0)%nat with false
    by (symmetry; apply Nat.eqb_neq; lia).
  destruct base as [|c0 base0] eqn:B; [congruence|]. rewrite <- B in *.
  replace (String.length dir + S (String.length base) - 1)
    with (S (String.length base0) + String.length dir)
    by (rewrite B; cbn [String.length]; lia).
  rewrite scan_base; auto; [|rewrite B; cbn [String.length]; lia].
  assert (Q : match String.get 0 (dir ++ String "/"%char base) with
              | Some c => Path.is_slash c
              | None => false
              end && (String.length dir =? 1)%nat = false).
  { destruct dir as [|c [|d rest]]; [congruence| |].
    - cbn. unfold Path.is_slash. destruct (Ascii.eqb_spec c "/"%char); [|reflexivity].
      subst c. congruence.
    - cbn [String.length]. cbn. apply andb_false_r. }
  rewrite Q. apply substring_append.
Qed.

(** C6 (amended). For a configuration whose location is [dir/base], with
    [dir] neither empty nor the root, and whose path contains [.js] - as
    it does for [apollo.config.js] and for [package.json] in every
    directory - [configDirURI] is [URI.parse] applied to the parent
    directory [dir]; so it is the URI of [dir] whenever [URI.parse] reads
    [dir] back as it is. For a location whose path contains neither [.js]
    nor [.ts], it is the location itself. *)
Theorem configDirURI_parent_directory (URI_parse : string -> outcome URI)
    (this : ApolloConfig) (uri : URI) :
  configURI this = Some uri ->
  (forall dir base,
      fsPath uri = (dir ++ String "/"%char base)%string ->
      dir <> EmptyString -> dir <> "/" -> base <> EmptyString ->
      JsString.mem "/"%char base = false ->
      JsString.includes ".js" (fsPath uri) = true ->
      configDirURI URI_parse this
      = match URI_parse dir with
        | Returned parent => Returned (Some parent)
        | Threw e => Threw e
        end
      /\ (forall parent,
             URI_parse dir = Returned parent -> fsPath parent = dir ->
             exists d, configDirURI URI_parse this = Returned (Some d)
                       /\ fsPath d = dir))
  /\ (forall dir,
         JsString.includes ".js" (dir ++ "/apollo.config.js")%string = true
         /\ JsString.includes ".js" (dir ++ "/package.json")%string = true)
  /\ (JsString.includes ".js" (fsPath uri) = false ->
      JsString.includes ".ts" (fsPath uri) = false ->
      configDirURI URI_parse this = Returned (Some uri)).
Proof.
  intros Hu. unfold configDirURI. rewrite Hu. split; [|split].
  - intros dir base Hp Hd Hr Hb Hm Hj. rewrite Hj, Hp.
    rewrite (dirname_parent dir base Hd Hr Hb Hm). split; [reflexivity|].
    intros parent -> Hf. now exists parent.
  - intros dir. split; now apply includes_append.
  - now intros -> _.
Qed.

Lemma configDirURI_parent_directory_witness :
  exists d,
    configDirURI (fun path => Returned (mkURI path))
      (newApolloConfig docBareClient (Some (URI_file "/proj/apollo.config.js")))
    = Returned (Some d)
    /\ fsPath d = "/proj".
Proof.
  exact (proj2 (proj1 (configDirURI_parent_directory
                        (fun path => Returned (mkURI path))
                        (newApolloConfig docBareClient
                           (Some (URI_file "/proj/apollo.config.js")))
                        (URI_file "/proj/apollo.config.js") eq_refl)
                  "/proj" "apollo.config.js" eq_refl
                  ltac:(discriminate) ltac:(discriminate) ltac:(discriminate)
                  eq_refl eq_refl)
           (mkURI "/proj") eq_refl eq_refl).
Defined.

(** C6, as stated, fails: for the static document [package.json] the
    result is not the location. It is not the case that, for every
    [URI.parse] that reads [/proj] back as it is, [configDirURI] of
    [/proj/package.json] is that location: it is the URI of [/proj]. *)
Lemma configDirURI_package_json :
  ~ (forall URI_parse : string -> outcome URI,
        (exists parent, URI_parse "/proj" = Returned parent
                        /\ fsPath parent = "/proj") ->
        configDirURI URI_parse
          (newApolloConfig docBareClient (Some (URI_file "/proj/package.json")))
        = Returned (Some (URI_file "/proj/package.json"))).
Proof.
  intros H.
  specialize (H (fun path => Returned (mkURI path))
                (ex_intro _ (mkURI "/proj") (conj eq_refl eq_refl))).
  vm_compute in H. discriminate.
Qed.

(** A TypeScript config module, which the search also tries, does not
    contain [.js]: its location is returned, not its directory. *)
Lemma configDirURI_ts_module (URI_parse : string -> outcome URI) :
  configDirURI URI_parse
    (newApolloConfig docBareClient (Some (URI_file "/proj/apollo.config.ts")))
  = Returned (Some (URI_file "/proj/apollo.config.ts")).
Proof. reflexivity. Qed.

(** C10. [setDefaults] leaves [name], [isClient], [isService] and
    [configURI] as they were, whatever the partial document holds, and
    replaces [engine] (by the engine block of the merged document) exactly
    when the partial's engine is truthy. *)
Theorem setDefaults_frame (partial : value) (this : ApolloConfig) :
  let after := setDefaults partial this in
  name after = name this
  /\ isClient after = isClient this
  /\ isService after = isService this
  /\ configURI after = configURI this
  /\ engine after
     = if truthy (get partial "engine") then get (rawConfig after) "engine"
       else engine this.
Proof. repeat split. Qed.

(** The name is kept even when the merged document now links another
    service. *)
Lemma setDefaults_name_is_stale :
  let after := setDefaults partialCartGamma (newApolloConfig docPayBeta None) in
  name after = VStr "pay" /\ getServiceName (rawConfig after) = VStr "cart".
Proof. split; vm_compute; reflexivity. Qed.

End ConfigModel.

(** ** The specifier parser *)
Section Specifier.

(** C8 (amended). For every string, [parseServiceSpecificer] returns as id
    the trimmed text before the first [@], and as tag the trimmed text
    between the first [@] and the second (or the end), [undefined] when
    there is no [@]. So [id@tag] without further [@] yields both parts
    trimmed, [id] alone yields no tag, and the empty string yields the
    empty id and no tag. *)
Theorem parseServiceSpecificer_pieces :
  (forall s,
      parseServiceSpecificer s
      = (Some (JsString.trim (fst (JsString.cut "@"%char s))),
         option_map JsString.trim (second_piece "@"%char s)))
  /\ (forall id tag,
         JsString.mem "@"%char id = false -> JsString.mem "@"%char tag = false ->
         parseServiceSpecificer (id ++ String "@"%char tag)%string
         = (Some (JsString.trim id), Some (JsString.trim tag)))
  /\ (forall id,
         JsString.mem "@"%char id = false ->
         parseServiceSpecificer id = (Some (JsString.trim id), None))
  /\ parseServiceSpecificer "" = (Some ""%string, None).
Proof.
  assert (G : forall s,
             parseServiceSpecificer s
             = (Some (JsString.trim (fst (JsString.cut "@"%char s))),
                option_map JsString.trim (second_piece "@"%char s))).
  { intros s. unfold parseServiceSpecificer.
    now rewrite !nth_error_map, split_first, split_second. }
  split; [exact G|]. split; [|split].
  - intros id tag Hi Ht. rewrite G. unfold second_piece.
    rewrite (cut_first _ _ _ Hi). cbn [fst snd]. now rewrite (cut_absent _ _ Ht).
  - intros id Hi. rewrite G. unfold second_piece. now rewrite (cut_absent _ _ Hi).
  - reflexivity.
Qed.

Lemma parseServiceSpecificer_pieces_witness :
  parseServiceSpecificer " pay @ beta " = (Some "pay", Some "beta")
  /\ parseServiceSpecificer "pay" = (Some "pay", None).
Proof.
  destruct parseServiceSpecificer_pieces as (_ & H2 & H3 & _).
  split.
  - exact (H2 " pay " " beta " eq_refl eq_refl).
  - exact (H3 "pay" eq_refl).
Defined.

(** C8, as stated, fails: with two [@] the tag is the middle piece, not
    all that follows the first [@]. *)
Lemma parseServiceSpecificer_second_at :
  parseServiceSpecificer "a@b@c" = (Some "a", Some "b")
  /\ specifierBySpec "a@b@c" = (Some "a", Some "b@c")
  /\ parseServiceSpecificer "a@b@c" <> specifierBySpec "a@b@c".
Proof. repeat split. discriminate. Qed.

End Specifier.

(** ** Further properties: projects and guards *)
Section Projects.
Import Js.



(** X15. The projects of a configuration are built afresh from its
    document: they do not inherit a tag assigned to the configuration, and
    their name and flags are those of the document as it is now, also
    after [setDefaults] changed it. *)
Theorem projects_are_fresh (this p : ApolloConfig) :
  In p (projects this) ->
  _tag p = None
  /\ name p = getServiceName (rawConfig this)
  /\ isClient p = truthy (get (rawConfig this) "client")
  /\ isService p = truthy (get (rawConfig this) "service")
  /\ configURI p = configURI this.
Proof.
  unfold projects, projectsFromConfig. intros Hin.
  assert (E : p = newApolloConfig (rawConfig this) (configURI this)).
  { apply in_app_or in Hin.
    destruct Hin as [Hin|Hin];
      [destruct (truthy (get (rawConfig this) "client"))
      |destruct (truthy (get (rawConfig this) "service"))];
      cbn in Hin; tauto || (destruct Hin as [Hin|[]]; now symmetry). }
  subst p. now repeat split.
Qed.

Lemma projects_are_fresh_witness :
  _tag (newApolloConfig docPayBeta None) = None
  /\ name (newApolloConfig docPayBeta None)
     = getServiceName (rawConfig (set_tag "gamma" (newApolloConfig docPayBeta None))).
Proof.
  destruct (projects_are_fresh (set_tag "gamma" (newApolloConfig docPayBeta None))
              (newApolloConfig docPayBeta None) (or_introl eq_refl))
    as (T & N & _).
  split; [exact T|exact N].
Defined.

End Projects.

(** ** Further properties: the parsers *)
Section Parsers.

Lemma mem_cut_before (sep : ascii) (s : string) :
  JsString.mem sep (fst (JsString.cut sep s)) = false.
Proof.
  induction s as [|c s IH]; cbn [JsString.cut]; [reflexivity|].
  destruct (Ascii.eqb c sep) eqn:E; [reflexivity|].
  destruct (JsString.cut sep s) as [before after]. cbn [fst JsString.mem] in *.
  now rewrite E, IH.
Qed.

Lemma mem_trimStart (c : ascii) (s : string) :
  JsString.mem c s = false -> JsString.mem c (JsString.trimStart s) = false.
Proof.
  induction s as [|d s IH]; cbn [JsString.trimStart]; [reflexivity|].
  intros H. destruct (JsString.is_white d); [|exact H].
  cbn [JsString.mem] in H. apply orb_false_iff in H as [_ H]. auto.
Qed.

Lemma mem_trimEnd (c : ascii) (s : string) :
  JsString.mem c s = false -> JsString.mem c (JsString.trimEnd s) = false.
Proof.
  induction s as [|d s IH]; cbn [JsString.trimEnd JsString.mem]; [reflexivity|].
  intros H. apply orb_false_iff in H as [Hd Hs]. specialize (IH Hs).
  destruct (JsString.trimEnd s) as [|e kept].
  - destruct (JsString.is_white d); [reflexivity|].
    cbn [JsString.mem]. now rewrite Hd.
  - cbn [JsString.mem] in *. now rewrite Hd, IH.
Qed.

Lemma mem_trim (c : ascii) (s : string) :
  JsString.mem c s = false -> JsString.mem c (JsString.trim s) = false.
Proof. intros H. unfold JsString.trim. now apply mem_trimEnd, mem_trimStart. Qed.

Lemma trimEnd_cons (c : ascii) (s : string) :
  JsString.trimEnd (String c s)
  = match JsString.trimEnd s with
    | EmptyString =>
        if JsString.is_white c then EmptyString else String c EmptyString
    | kept => String c kept
    end.
Proof. reflexivity. Qed.

Lemma trimEnd_trimEnd (s : string) :
  JsString.trimEnd (JsString.trimEnd s) = JsString.trimEnd s.
Proof.
  induction s as [|c s IH]; [reflexivity|]. rewrite trimEnd_cons.
  destruct (JsString.trimEnd s) as [|d kept] eqn:E.
  - destruct (JsString.is_white c) eqn:W; [reflexivity|].
    rewrite trimEnd_cons. cbn [JsString.trimEnd]. now rewrite W.
  - rewrite trimEnd_cons, IH. reflexivity.
Qed.

Lemma trimStart_trimEnd_trimStart (s : string) :
  JsString.trimStart (JsString.trimEnd (JsString.trimStart s))
  = JsString.trimEnd (JsString.trimStart s).
Proof.
  induction s as [|c s IH]; [reflexivity|]. cbn [JsString.trimStart].
  destruct (JsString.is_white c) eqn:W; [exact IH|].
  rewrite trimEnd_cons.
  destruct (JsString.trimEnd s); rewrite ?W; cbn [JsString.trimStart]; now rewrite W.
Qed.

Lemma trim_trim (s : string) : JsString.trim (JsString.trim s) = JsString.trim s.
Proof.
  unfold JsString.trim. now rewrite trimStart_trimEnd_trimStart, trimEnd_trimEnd.
Qed.

(** X2. Whatever the input, both pieces [parseServiceSpecificer] returns
    are trimmed (trimming them again changes nothing) and hold no [@]. *)
Theorem specifier_pieces_are_clean (specifier piece : string) :
  fst (parseServiceSpecificer specifier) = Some piece
  \/ snd (parseServiceSpecificer specifier) = Some piece ->
  JsString.trim piece = piece /\ JsString.mem "@"%char piece = false.
Proof.
  unfold parseServiceSpecificer. cbn [fst snd].
  rewrite !nth_error_map, split_first, split_second. unfold second_piece.
  intros [H|H].
  - injection H as <-. split; [apply trim_trim|apply mem_trim, mem_cut_before].
  - destruct (snd (JsString.cut "@"%char specifier)) as [after|]; [|discriminate].
    injection H as <-. split; [apply trim_trim|apply mem_trim, mem_cut_before].
Qed.

Lemma specifier_pieces_are_clean_witness :
  JsString.trim "beta" = "beta" /\ JsString.mem "@"%char "beta" = false.
Proof.
  exact (specifier_pieces_are_clean " pay @ beta @ x" "beta" (or_intror eq_refl)).
Defined.

(** X3. [getServiceFromKey] returns the second of the pieces between
    colons: for a key [service:<name>:<rest>] the name, whatever follows
    it; a key without a colon, the empty key and [undefined] give
    nothing. *)
Theorem getServiceFromKey_pieces :
  (forall name rest,
      JsString.mem ":"%char name = false ->
      getServiceFromKey (Some ("service:" ++ name ++ String ":"%char rest)%string)
      = Some name)
  /\ (forall key, JsString.mem ":"%char key = false ->
                  getServiceFromKey (Some key) = None)
  /\ getServiceFromKey None = None.
Proof.
  split; [|split; [|reflexivity]].
  - intros name rest H. unfold getServiceFromKey.
    cbn [JsString.truthy String.append].
    rewrite split_first, split_second. unfold second_piece.
    cbn [JsString.cut Ascii.eqb Bool.eqb fst snd String.eqb].
    now rewrite (cut_first _ _ _ H).
  - intros key H. unfold getServiceFromKey.
    destruct (JsString.truthy key); [|reflexivity].
    rewrite split_first, split_second. unfold second_piece.
    rewrite (cut_absent _ _ H). cbn [fst snd].
    now destruct (String.eqb key "service").
Qed.

Lemma getServiceFromKey_pieces_witness :
  getServiceFromKey (Some "service:cart:E4VSTiXeFWaSSBgFWXOiSA") = Some "cart"
  /\ getServiceFromKey (Some "service") = None.
Proof.
  destruct getServiceFromKey_pieces as (H1 & H2 & _).
  split.
  - exact (H1 "cart" "E4VSTiXeFWaSSBgFWXOiSA" eq_refl).
  - exact (H2 "service" eq_refl).
Defined.

End Parsers.

(** ** Further properties: [setDefaults] *)
Section SetDefaults.
Import Js Lodash MergeAux JsFacts MergeFacts LayerAux LayerFacts.

Lemma incl_front (seen ks : list string) : incl ks (front seen ks).
Proof.
  intros k Hk. unfold front. apply in_or_app.
  destruct (mem k seen) eqn:E.
  - left. now apply mem_true_iff.
  - right. apply fresh_In. split; [exact Hk|now apply mem_false_iff].
Qed.

(** Merging the same source a second time changes nothing. *)
Lemma upd_again (s : value) :
  wf s = true -> forall d, wf d = true -> upd (upd d s) s = upd d s.
Proof.
  induction s as [ | | b | n | str | xs IHxs | sf IHsf ] using value_ind;
    intros Hs d Hd; try reflexivity.
  - cbn [upd]. rewrite !baseMerge_arr. cbn [own_elems]. f_equal. apply list_ext.
    + rewrite !length_eachElem. lia.
    + intros i. rewrite !nth_eachElem.
      apply (nth_Forall (fun v => wf v = true ->
               forall d, wf d = true -> upd (upd d v) v = upd d v) xs i IHxs);
        auto using nth_wf, wf_own_elems.
  - pose proof (wf_upd _ Hs d Hd) as Hr. revert Hr.
    rewrite !upd_obj. cbn [own_props]. intros Hr.
    pose proof (wf_keys _ Hs) as Hsu. pose proof (wf_keys _ Hr) as Hru.
    f_equal. symmetry. apply props_ext.
    + exact Hru.
    + rewrite (keys_eachProp_front sf (eachProp sf (own_props d)) Hsu).
      unfold front at 1. rewrite (fresh_seen _ (keys sf)); [now rewrite app_nil_r|].
      rewrite (keys_eachProp_front sf (own_props d) Hsu). apply incl_front.
    + intros k. rewrite (lookup_eachProp k sf (eachProp sf (own_props d)) Hsu).
      rewrite (lookup_eachProp k sf (own_props d) Hsu). symmetry.
      apply (lookup_Forall (fun v => wf v = true ->
               forall d, wf d = true -> upd (upd d v) v = upd d v) sf k IHsf);
        auto using lookup_wf, wf_own_props.
Qed.

Lemma wf_get (v : value) (k : string) : wf v = true -> wf (get v k) = true.
Proof. intros H. unfold get. now apply lookup_wf, wf_own_props. Qed.

Lemma wf_fragments (partial : value) :
  wf partial = true -> wf (VObj (fragments partial)) = true.
Proof.
  intros H. rewrite wf_obj. cbn. now rewrite !wf_get by exact H.
Qed.

(** The document after [setDefaults], for an object [rawConfig]. *)
Lemma setDefaults_rawConfig (partial : value) (this : ApolloConfig) (rf : props) :
  rawConfig this = VObj rf -> wf (VObj rf) = true ->
  rawConfig (setDefaults partial this) = VObj (eachProp (fragments partial) rf).
Proof.
  intros Hr Hw. unfold setDefaults. cbn [rawConfig]. rewrite Hr.
  now apply merge_objects.
Qed.

Lemma setDefaults_views (partial : value) (this : ApolloConfig) (rf : props) :
  rawConfig this = VObj rf -> wf (VObj rf) = true ->
  client (setDefaults partial this)
  = upd (lookup "client" rf) (get partial "client")
  /\ service (setDefaults partial this)
     = upd (lookup "service" rf) (get partial "service")
  /\ engine (setDefaults partial this)
     = if truthy (get partial "engine")
       then upd (lookup "engine" rf) (get partial "engine")
       else engine this.
Proof.
  intros Hr Hw.
  pose proof (setDefaults_rawConfig partial this rf Hr Hw) as E.
  unfold setDefaults in *. cbn [rawConfig client service engine] in *.
  rewrite E. unfold get at 1 3 6. cbn [own_props].
  now rewrite !lookup_eachProp by reflexivity.
Qed.

(** X4. Despite its name, [setDefaults] lets the partial document win:
    every value of the partial's client, service or (truthy) engine
    fragment that is neither [undefined] nor a container is found at the
    same place in the corresponding view afterwards, whatever the
    configuration held there. *)
Theorem setDefaults_partial_wins (partial : value) (this : ApolloConfig)
    (rf : props) (path : list step) (v : value) :
  rawConfig this = VObj rf -> wf (VObj rf) = true -> wf partial = true ->
  is_leaf v = true ->
  (at_path (get partial "client") path = v ->
   at_path (client (setDefaults partial this)) path = v)
  /\ (at_path (get partial "service") path = v ->
      at_path (service (setDefaults partial this)) path = v)
  /\ (truthy (get partial "engine") = true ->
      at_path (get partial "engine") path = v ->
      at_path (engine (setDefaults partial this)) path = v).
Proof.
  intros Hr Hw Hp Hv.
  destruct (setDefaults_views partial this rf Hr Hw) as (C & S & E).
  rewrite C, S, E. repeat split.
  - intros H. apply at_path_upd; auto using wf_get.
  - intros H. apply at_path_upd; auto using wf_get.
  - intros T H. rewrite T. apply at_path_upd; auto using wf_get.
Qed.

Lemma setDefaults_partial_wins_witness :
  at_path (client (setDefaults partialTagName
                     (resultOf (loadConfig (exampleWorld (found docPayBeta) None)
                                  (settings None None)))))
    [Key "tagName"] = VStr "graphql".
Proof.
  refine (proj1 (setDefaults_partial_wins partialTagName
                   (resultOf (loadConfig (exampleWorld (found docPayBeta) None)
                                (settings None None)))
                   _ [Key "tagName"] (VStr "graphql") _ _ eq_refl eq_refl) eq_refl).
  - vm_compute. reflexivity.
  - vm_compute. reflexivity.
Defined.

(** X5. [setDefaults] is idempotent: applying the same partial document a
    second time leaves the configuration as the first application made
    it. *)
Theorem setDefaults_idempotent (partial : value) (this : ApolloConfig) (rf : props) :
  rawConfig this = VObj rf -> wf (VObj rf) = true -> wf partial = true ->
  setDefaults partial (setDefaults partial this) = setDefaults partial this.
Proof.
  intros Hr Hw Hp.
  pose proof (setDefaults_rawConfig partial this rf Hr Hw) as E1.
  assert (W1 : wf (VObj (eachProp (fragments partial) rf)) = true)
    by (apply wf_eachProp; [now apply wf_fragments|exact Hw]).
  pose proof (setDefaults_rawConfig partial (setDefaults partial this) _ E1 W1) as E2.
  assert (Eq : eachProp (fragments partial) (eachProp (fragments partial) rf)
               = eachProp (fragments partial) rf).
  { pose proof (upd_again (VObj (fragments partial)) (wf_fragments _ Hp)
                  (VObj rf) Hw) as H.
    rewrite !upd_obj in H. cbn [own_props] in H. now injection H. }
  rewrite Eq in E2.
  unfold setDefaults in *. cbn [rawConfig configURI isClient isService engine name
                                  service client _tag] in *.
  rewrite E2, E1. destruct (truthy (get partial "engine")); reflexivity.
Qed.

Lemma setDefaults_idempotent_witness :
  setDefaults partialCartGamma
    (setDefaults partialCartGamma (newApolloConfig docPayBeta None))
  = setDefaults partialCartGamma (newApolloConfig docPayBeta None).
Proof.
  exact (setDefaults_idempotent partialCartGamma (newApolloConfig docPayBeta None)
           (own_props docPayBeta) eq_refl eq_refl eq_refl).
Defined.

(** X6. A partial document without client, engine and service fragments
    changes no value: every property of [rawConfig] reads as before, and
    the client, service and engine views of a freshly constructed
    configuration stay what they were. *)
Theorem setDefaults_without_fragments (partial : value) (rf : props)
    (uri : option URI) :
  wf (VObj rf) = true ->
  get partial "client" = VUndef -> get partial "engine" = VUndef ->
  get partial "service" = VUndef ->
  let this := newApolloConfig (VObj rf) uri in
  (forall k, get (rawConfig (setDefaults partial this)) k = get (rawConfig this) k)
  /\ client (setDefaults partial this) = client this
  /\ service (setDefaults partial this) = service this
  /\ engine (setDefaults partial this) = engine this.
Proof.
  intros Hw Hc He Hs this.
  destruct (setDefaults_views partial this rf eq_refl Hw) as (C & S & E).
  rewrite C, S, E, Hc, He, Hs. split; [|now repeat split].
  intros k. rewrite (setDefaults_rawConfig partial this rf eq_refl Hw).
  unfold get. cbn [own_props rawConfig this newApolloConfig].
  rewrite lookup_eachProp by reflexivity. unfold fragments.
  rewrite Hc, He, Hs. cbn [lookup].
  now destruct (String.eqb k "client"), (String.eqb k "engine"),
               (String.eqb k "service").
Qed.

Lemma setDefaults_without_fragments_witness :
  client (setDefaults (VObj []) (newApolloConfig docPayBeta None))
  = client (newApolloConfig docPayBeta None).
Proof.
  exact (proj1 (proj2 (setDefaults_without_fragments (VObj []) (own_props docPayBeta)
                         None eq_refl eq_refl eq_refl eq_refl))).
Defined.

End SetDefaults.

(** ** Further properties: [loadConfig] *)
Section LoadConfigMore.
Import Js Lodash MergeAux JsFacts MergeFacts LayerAux LayerFacts.

Lemma truthy_layered_block (eco cf : props) (key : string) :
  overrideShape eco -> wf (VObj cf) = true -> In key ["client"; "service"] ->
  truthy (lookup key (layered eco cf)) = truthy (lookup key cf).
Proof.
  intros Hs Hc Hin. rewrite lookup_layered; auto using overrideShape_wf.
  rewrite layeredValue_block; auto using lookup_wf. now rewrite !truthy_under.
Qed.

(** The shape of every configuration [loadConfig] returns for an object
    document. *)
Lemma loadConfig_returned_form (w : World) (s : LoadConfigSettings)
    (cfg : ApolloConfig) (cf : props) :
  loadConfig w s = Returned cfg ->
  documentOf (located w s) = VObj cf -> wf (VObj cf) = true ->
  exists t n cf' eco,
    resolveProject (settingsType s) (settingsName s) (snd (readSecret w s))
      (located w s) = Some (t, n)
    /\ overrideShape eco
    /\ config (synthesize w s t n (located w s)) = VObj cf'
    /\ wf (VObj cf') = true
    /\ cfg = newApolloConfig (VObj (layered eco cf'))
               (Some (URI_file (resolve w [filepath (synthesize w s t n (located w s))]))).
Proof.
  intros Hl Hd Hc. rewrite loadConfig_unfold in Hl.
  destruct (_ && _); [discriminate|].
  destruct (resolveProject _ _ _ _) as [[t n]|]; [|discriminate].
  cbv zeta in Hl.
  destruct (synthesize_document w s t n (located w s) cf Hd Hc) as (cf' & E & Hw & _).
  destruct (match isEmpty _ with Some b => b | None => false end); [discriminate|].
  injection Hl as <-.
  destruct (readSecret_shape w s) as (eco & He & Hs).
  exists t, n, cf', eco. rewrite E, He.
  rewrite applyDefaults_layered by now apply overrideShape_wf.
  now repeat split.
Qed.

(** X7. Which blocks a returned configuration reports. When the located
    document is kept (no name was resolved), [isClient] and [isService]
    are exactly the document's blocks, whatever type the caller supplied: a
    supplied type the document lacks is not created. When a document is
    built (none located, or a name resolved), the block of the resolved
    type is always there. *)
Theorem loadConfig_flags (w : World) (s : LoadConfigSettings)
    (cfg : ApolloConfig) (cf : props) (t : ProjectType) (n : option string) :
  loadConfig w s = Returned cfg ->
  documentOf (located w s) = VObj cf -> wf (VObj cf) = true ->
  resolveProject (settingsType s) (settingsName s) (snd (readSecret w s))
    (located w s) = Some (t, n) ->
  (located w s <> None -> opt_truthy n = false ->
   isClient cfg = truthy (lookup "client" cf)
   /\ isService cfg = truthy (lookup "service" cf))
  /\ (located w s = None \/ opt_truthy n = true -> flagOf t cfg = true).
Proof.
  intros Hl Hd Hc Hr.
  destruct (loadConfig_returned_form w s cfg cf Hl Hd Hc)
    as (t' & n' & cf' & eco & Hr' & Hs & E & Hw & ->).
  rewrite Hr in Hr'. injection Hr' as <- <-.
  cbn [newApolloConfig isClient isService]. unfold get. cbn [own_props].
  rewrite !truthy_layered_block by (auto; cbn; tauto).
  split.
  - intros Hloc Hn. destruct (located w s) as [l|]; [|congruence].
    rewrite synthesize_kept in E by exact Hn. cbn [documentOf] in Hd.
    rewrite Hd in E. now injection E as <-.
  - intros Hb.
    destruct (synthesize_rebuilt w s t n (located w s) cf Hd Hc Hb) as [E' _].
    rewrite E' in E. injection E as <-.
    destruct t; cbn [flagOf newApolloConfig isClient isService blockKey];
      unfold get; cbn [own_props];
      rewrite truthy_layered_block; auto; try (cbn; tauto);
      now rewrite lookup_set_key.
Qed.

Lemma loadConfig_flags_witness :
  isClient (resultOf (loadConfig (exampleWorld (found docOrders) None)
                        (settings None (Some Client)))) = false
  /\ isService (resultOf (loadConfig (exampleWorld (found docOrders) None)
                            (settings None (Some Client)))) = true.
Proof.
  refine (proj1 (loadConfig_flags (exampleWorld (found docOrders) None)
                   (settings None (Some Client)) _ (own_props docOrders)
                   Client None _ eq_refl eq_refl eq_refl) _ eq_refl).
  - vm_compute. reflexivity.
  - discriminate.
Defined.

Lemma layered_service_block (eco cf sb : props) :
  overrideShape eco -> wf (VObj cf) = true -> lookup "service" cf = VObj sb ->
  lookup "service" (layered eco cf) = upd DefaultServiceConfig (VObj sb).
Proof.
  intros Hs Hc Hb.
  apply layered_block; auto using overrideShape_wf;
    try (destruct Hs as [->|[k ->]]; reflexivity).
  right. now left.
Qed.

Lemma layered_client_block (eco cf blk : props) :
  overrideShape eco -> wf (VObj cf) = true -> lookup "client" cf = VObj blk ->
  lookup "client" (layered eco cf) = upd DefaultClientConfig (VObj blk).
Proof.
  intros Hs Hc Hb.
  apply layered_block; auto using overrideShape_wf;
    try (destruct Hs as [->|[k ->]]; reflexivity).
  now left.
Qed.

(** The name of a layered document with an object service block. *)
Lemma getServiceName_service (eco cf sb : props) :
  overrideShape eco -> wf (VObj cf) = true -> lookup "service" cf = VObj sb ->
  getServiceName (VObj (layered eco cf)) = lookup "name" sb.
Proof.
  intros Hs Hc Hb. unfold getServiceName, get. cbn [own_props].
  rewrite (layered_service_block eco cf sb Hs Hc Hb).
  assert (Hsb : wf (VObj sb) = true) by (rewrite <- Hb; now apply lookup_wf).
  rewrite upd_obj. cbn [truthy own_props].
  rewrite lookup_eachProp by now apply wf_keys.
  apply upd_undef_l. now apply lookup_wf.
Qed.

Lemma of_opt_or_else (a b : option string) (d : value) :
  opt_truthy (or_else a b) = true ->
  of_opt (or_else a b)
  = if opt_truthy a then of_opt a else if opt_truthy b then of_opt b else d.
Proof.
  unfold or_else. destruct (opt_truthy a) eqn:A; [reflexivity|]. now intros ->.
Qed.

Lemma or_else_falsy (a b : option string) (d : value) :
  opt_truthy (or_else a b) = false ->
  d = if opt_truthy a then of_opt a else if opt_truthy b then of_opt b else d.
Proof.
  unfold or_else. destruct (opt_truthy a) eqn:A; [congruence|]. now intros ->.
Qed.

(** X8. The name of a service project: for a located document with an
    object service block and no client block, resolved without a type or
    as a service, the name is the caller's name if it is non-empty,
    else the name read from the secret if that is non-empty, else the name
    the document gives its service. *)
Theorem loadConfig_service_name (w : World) (s : LoadConfigSettings)
    (l : ConfigResult) (cf sb : props) :
  located w s = Some l -> config l = VObj cf -> wf (VObj cf) = true ->
  isEmpty l <> Some true -> settingsType s <> Some Client ->
  truthy (lookup "client" cf) = false -> lookup "service" cf = VObj sb ->
  exists cfg,
    loadConfig w s = Returned cfg
    /\ isService cfg = true
    /\ name cfg
       = if opt_truthy (settingsName s) then of_opt (settingsName s)
         else if opt_truthy (snd (readSecret w s)) then of_opt (snd (readSecret w s))
              else lookup "name" sb.
Proof.
  intros Hl Hd Hc He Ht Hcl Hsb.
  set (n := or_else (settingsName s) (snd (readSecret w s))).
  assert (R : resolveProject (settingsType s) (settingsName s)
                (snd (readSecret w s)) (located w s) = Some (Service, n)).
  { rewrite Hl. unfold resolveProject. rewrite Hd. unfold get. cbn [own_props].
    rewrite Hcl, Hsb. cbn [truthy].
    destruct (settingsType s) as [[|]|]; try reflexivity. congruence. }
  destruct (readSecret_shape w s) as (eco & Heco & Hs).
  rewrite loadConfig_unfold, Hl, andb_false_r. rewrite Hl in R. rewrite R. cbv zeta.
  rewrite Heco. destruct (opt_truthy n) eqn:N.
  - destruct (synthesize_rebuilt w s Service n (Some l) cf Hd Hc) as [E1 E2];
      [now right|].
    rewrite E2, E1. eexists. split; [reflexivity|].
    rewrite applyDefaults_layered by now apply overrideShape_wf.
    cbn [newApolloConfig isService name blockKey nameKey].
    set (blk := rebuiltBlock Service (lookup "service" cf) n).
    assert (Hb : wf blk = true) by (apply wf_rebuiltBlock; now apply lookup_wf).
    assert (Hw : wf (VObj (set_key "service" blk cf)) = true) by now apply wf_set_key.
    assert (Hk : lookup "service" (set_key "service" blk cf) = blk)
      by now rewrite lookup_set_key.
    unfold blk, rebuiltBlock in Hk. split.
    + unfold get. cbn [own_props].
      rewrite truthy_layered_block; auto; [|cbn; tauto]. fold blk. now rewrite lookup_set_key.
    + rewrite (getServiceName_service eco _ _ Hs Hw Hk).
      cbn [nameKey]. rewrite (lookup_block (lookup "service" cf) "name" n).
      now apply of_opt_or_else.
  - rewrite synthesize_kept by exact N.
    destruct (isEmpty l) as [[|]|]; [congruence| |]; rewrite Hd;
      (eexists; split; [reflexivity|]);
      rewrite applyDefaults_layered by (now apply overrideShape_wf);
      cbn [newApolloConfig isService name];
      (split; [unfold get; cbn [own_props];
               rewrite truthy_layered_block; auto; [now rewrite Hsb|cbn; tauto]|]);
      rewrite (getServiceName_service eco cf sb Hs Hc Hsb);
      now apply or_else_falsy.
Qed.

Lemma loadConfig_service_name_witness :
  exists cfg,
    loadConfig (exampleWorld (found docOrders) (Some "service:cart:secret"))
      (settings None None) = Returned cfg
    /\ isService cfg = true /\ name cfg = VStr "cart".
Proof.
  exact (loadConfig_service_name
           (exampleWorld (found docOrders) (Some "service:cart:secret"))
           (settings None None)
           {| config := docOrders; filepath := "/proj/apollo.config.js";
              isEmpty := None |}
           (own_props docOrders) [("name", VStr "orders")]
           eq_refl eq_refl eq_refl
           ltac:(discriminate) ltac:(discriminate) eq_refl eq_refl).
Defined.

(** X9. A located document whose client block links its service by a
    non-empty specifier string, resolved without a type from the caller:
    whatever name the caller or the secret gives, the configuration is a
    client one, named by the id part of the specifier, and its tag is the
    non-empty tag of the specifier, or [current]. *)
Theorem loadConfig_client_specifier (w : World) (s : LoadConfigSettings)
    (l : ConfigResult) (cf blk : props) (specifier : string) :
  located w s = Some l -> config l = VObj cf -> wf (VObj cf) = true ->
  settingsType s = None ->
  lookup "client" cf = VObj blk -> lookup "service" blk = VStr specifier ->
  JsString.truthy specifier = true -> truthy (lookup "service" cf) = false ->
  exists cfg,
    loadConfig w s = Returned cfg
    /\ isClient cfg = true
    /\ name cfg = of_opt (fst (parseServiceSpecificer specifier))
    /\ fst (get_tag cfg)
       = match snd (parseServiceSpecificer specifier) with
         | Some embedded => if JsString.truthy embedded then embedded else "current"
         | None => "current"
         end.
Proof.
  intros Hl Hd Hc Ht Hcl Hsp Hn Hsv.
  assert (R : resolveProject (settingsType s) (settingsName s)
                (snd (readSecret w s)) (Some l) = Some (Client, Some specifier)).
  { rewrite Ht. unfold resolveProject. rewrite Hd. unfold get. cbn [own_props].
    rewrite Hcl. cbn [own_props truthy]. now rewrite Hsp. }
  destruct (readSecret_shape w s) as (eco & Heco & Hs).
  rewrite loadConfig_unfold, Hl, andb_false_r, R. cbv zeta. rewrite Heco.
  destruct (synthesize_rebuilt w s Client (Some specifier) (Some l) cf Hd Hc)
    as [E1 E2]; [now right|].
  rewrite E2, E1. eexists. split; [reflexivity|].
  rewrite applyDefaults_layered by now apply overrideShape_wf.
  cbn [blockKey nameKey] in *.
  set (old := lookup "client" cf).
  assert (Ho : wf old = true) by now apply lookup_wf.
  pose proof (wf_rebuiltBlock Client old (Some specifier) Ho) as Hb.
  set (cf' := set_key "client" (rebuiltBlock Client old (Some specifier)) cf).
  assert (Hw : wf (VObj cf') = true) by now apply wf_set_key.
  assert (Hk : lookup "client" cf'
               = VObj (assign_all [] (DefaultConfigBase ++ own_props old
                                      ++ [("service", of_opt (Some specifier))])))
    by (unfold cf'; now rewrite lookup_set_key).
  assert (Hsv' : truthy (lookup "service" cf') = false)
    by (unfold cf'; now rewrite lookup_set_key).
  pose proof (lookup_block old "service" (Some specifier)) as Hlink.
  destruct (getServiceName_linked_client eco cf' _ specifier Hs Hw Hsv' Hk Hlink)
    as (N & C & _).
  cbn [newApolloConfig isClient name]. split; [exact C|]. split; [exact N|].
  unfold get_tag. cbn [newApolloConfig _tag opt_truthy client fst].
  change (get (VObj (layered eco cf')) "client")
    with (lookup "client" (layered eco cf')).
  rewrite (layered_client_block eco cf' _ Hs Hw Hk), upd_obj.
  cbn [truthy own_props]. unfold get. cbn [own_props].
  rewrite lookup_eachProp by (apply wf_keys; rewrite <- Hk; now apply lookup_wf).
  rewrite Hlink. reflexivity.
Qed.

Lemma loadConfig_client_specifier_witness :
  exists cfg,
    loadConfig (exampleWorld (found docPayBeta) (Some "service:cart:secret"))
      (settings (Some "checkout") None) = Returned cfg
    /\ isClient cfg = true
    /\ name cfg = VStr "pay"
    /\ fst (get_tag cfg) = "beta".
Proof.
  exact (loadConfig_client_specifier
           (exampleWorld (found docPayBeta) (Some "service:cart:secret"))
           (settings (Some "checkout") None)
           {| config := docPayBeta; filepath := "/proj/apollo.config.js";
              isEmpty := None |}
           (own_props docPayBeta) [("service", VStr "pay@beta")] "pay@beta"
           eq_refl eq_refl eq_refl eq_refl eq_refl eq_refl eq_refl eq_refl).
Defined.

Lemma synthesize_filepath (w : World) (s : LoadConfigSettings) (t : ProjectType)
    (n : option string) (loaded : option ConfigResult) :
  filepath (synthesize w s t n loaded)
  = match loaded with
    | Some l => if opt_truthy n then workingDir w s else filepath l
    | None => workingDir w s
    end.
Proof.
  unfold synthesize, workingDir. destruct loaded as [l|]; [|reflexivity].
  now destruct (opt_truthy n).
Qed.

(** X10. Where a returned configuration says it comes from: the located
    file only when the document was kept; as soon as a name is resolved
    (or nothing was located) the location is the directory
    [configPath || process.cwd()], and the path of the located file is
    lost. *)
Theorem loadConfig_location (w : World) (s : LoadConfigSettings)
    (cfg : ApolloConfig) :
  loadConfig w s = Returned cfg ->
  configURI cfg
  = Some (URI_file
            (resolve w
               [match located w s with
                | Some l =>
                    if opt_truthy (passName w s) then workingDir w s else filepath l
                | None => workingDir w s
                end])).
Proof.
  intros Hl. rewrite loadConfig_unfold in Hl. unfold passName. fold (located w s).
  destruct (_ && _); [discriminate|].
  destruct (resolveProject _ _ _ _) as [[t n]|]; [|discriminate].
  cbv zeta in Hl.
  destruct (match isEmpty _ with Some b => b | None => false end); [discriminate|].
  injection Hl as <-. cbn [newApolloConfig configURI].
  now rewrite synthesize_filepath.
Qed.

Lemma loadConfig_location_witness :
  configURI (resultOf (loadConfig (exampleWorld (found docPayBeta) None)
                         (settings None None)))
  = Some (URI_file "/proj").
Proof.
  refine (loadConfig_location (exampleWorld (found docPayBeta) None)
            (settings None None) _ _).
  vm_compute. reflexivity.
Defined.

(** X11. [requireConfig] only matters when nothing is located: with a
    located document, [loadConfig] gives the same outcome whatever the
    flag. *)
Theorem requireConfig_irrelevant_when_located (w : World) (s : LoadConfigSettings)
    (b : option bool) :
  located w s <> None ->
  loadConfig w (withRequireConfig b s) = loadConfig w s.
Proof.
  intros Hl. rewrite !loadConfig_unfold.
  change (located w (withRequireConfig b s)) with (located w s).
  change (readSecret w (withRequireConfig b s)) with (readSecret w s).
  destruct (located w s) as [l|]; [|congruence].
  now rewrite !andb_false_r.
Qed.

Lemma requireConfig_irrelevant_when_located_witness :
  loadConfig (exampleWorld (found docPayBeta) None)
    (withRequireConfig (Some true) (settings None None))
  = loadConfig (exampleWorld (found docPayBeta) None) (settings None None).
Proof.
  apply (requireConfig_irrelevant_when_located
           (exampleWorld (found docPayBeta) None) (settings None None) (Some true)).
  discriminate.
Defined.

(** X12. Without a located document, unless one is required, a type from
    the caller is enough: [loadConfig] returns a configuration with the
    block of that type only, the default globs in it, and - for a service -
    the caller's or else the secret's name (possibly none) and the default
    local endpoint; for a client the name is the id part of that name. *)
Theorem loadConfig_without_document (w : World) (s : LoadConfigSettings)
    (t : ProjectType) :
  located w s = None -> requireConfig s <> Some true -> settingsType s = Some t ->
  let n := or_else (settingsName s) (snd (readSecret w s)) in
  exists cfg,
    loadConfig w s = Returned cfg
    /\ isClient cfg = match t with Client => true | Service => false end
    /\ isService cfg = match t with Client => false | Service => true end
    /\ at_path (rawConfig cfg) [Key (blockKey t); Key "includes"]
       = lookup "includes" DefaultConfigBase
    /\ at_path (rawConfig cfg) [Key (blockKey t); Key "excludes"]
       = lookup "excludes" DefaultConfigBase
    /\ name cfg
       = match t, n with
         | Service, _ => of_opt n
         | Client, Some specifier => of_opt (fst (parseServiceSpecificer specifier))
         | Client, None => VUndef
         end
    /\ (t = Service ->
        at_path (rawConfig cfg) [Key "service"; Key "endpoint"; Key "url"]
        = VStr "http://localhost:4000/graphql").
Proof.
  intros Hl Hq Ht n.
  assert (R : resolveProject (settingsType s) (settingsName s)
                (snd (readSecret w s)) None = Some (t, n)) by now rewrite Ht.
  destruct (readSecret_shape w s) as (eco & Heco & Hs).
  rewrite loadConfig_unfold, Hl, R. cbv zeta. rewrite Heco.
  assert (Q : match requireConfig s with Some b => b | None => false end && true
              = false).
  { destruct (requireConfig s) as [[|]|]; [congruence|reflexivity|reflexivity]. }
  rewrite Q. clearbody n. clear R Q.
  destruct t, Hs as [->|[k ->]], n as [specifier|];
    (eexists; split; [reflexivity|]);
    cbn [newApolloConfig isClient isService rawConfig name];
    repeat split; try discriminate; vm_compute; reflexivity.
Qed.

Lemma loadConfig_without_document_witness :
  exists cfg,
    loadConfig (exampleWorld None None) (settings None (Some Service)) = Returned cfg
    /\ isService cfg = true
    /\ name cfg = VUndef
    /\ at_path (rawConfig cfg) [Key "service"; Key "endpoint"; Key "url"]
       = VStr "http://localhost:4000/graphql".
Proof.
  destruct (loadConfig_without_document (exampleWorld None None)
              (settings None (Some Service)) Service eq_refl
              ltac:(discriminate) eq_refl)
    as (cfg & R & _ & S & _ & _ & N & U).
  exists cfg. split; [exact R|]. split; [exact S|]. split; [exact N|].
  exact (U eq_refl).
Defined.

Lemma upd_undef_inv (d x : value) : upd d x = VUndef -> d = VUndef.
Proof.
  destruct x; cbn [upd]; rewrite ?baseMerge_arr, ?baseMerge_obj;
    solve [auto | discriminate].
Qed.

Lemma lookup_defined (o : props) (k : string) :
  Forall (fun kv => snd kv <> VUndef) o -> has_key k o = true ->
  lookup k o <> VUndef.
Proof.
  intros Ho Hk. rewrite Forall_forall in Ho.
  exact (Ho _ (lookup_In k o Hk)).
Qed.

(** X13. After the defaults merge no key of the default client (service)
    configuration is left undefined in an object client (service) block of
    the document: includes, excludes, tagName and the other default keys
    can be read without a check. *)
Theorem defaults_fill_default_keys (w : World) (s : LoadConfigSettings)
    (cf blk : props) (block k : string) (D : value) :
  wf (VObj cf) = true ->
  In (block, D)
     [("client", DefaultClientConfig); ("service", DefaultServiceConfig)] ->
  lookup block cf = VObj blk ->
  has_key k (own_props D) = true ->
  get (get (applyDefaults (fst (readSecret w s)) (VObj cf)) block) k <> VUndef.
Proof.
  intros Hc Hin Hb Hk.
  destruct (readSecret_wf w s) as (eco & He & Hew & Hec & Hes).
  rewrite He, applyDefaults_layered by exact Hew.
  unfold get at 2. cbn [own_props].
  rewrite (layered_block eco cf block D blk) by assumption.
  rewrite upd_obj. unfold get. cbn [own_props].
  assert (Hbw : wf (VObj blk) = true) by (rewrite <- Hb; now apply lookup_wf).
  rewrite lookup_eachProp by now apply wf_keys.
  intros H. apply upd_undef_inv in H. revert H. apply lookup_defined; [|exact Hk].
  destruct Hin as [E|[E|[]]]; injection E as <- <-;
    repeat constructor; discriminate.
Qed.

Lemma defaults_fill_default_keys_witness :
  get (get (applyDefaults (fst (readSecret (exampleWorld (found docBareClient) None)
                                  (settings None None))) docBareClient)
         "client") "tagName" <> VUndef.
Proof.
  exact (defaults_fill_default_keys (exampleWorld (found docBareClient) None)
           (settings None None) (own_props docBareClient) [("name", VStr "web")]
           "client" "tagName" DefaultClientConfig eq_refl (or_introl eq_refl)
           eq_refl eq_refl).
Defined.

Lemma upd_array_fresh (d : value) (xs : list value) :
  own_elems d = [] -> wf (VArr xs) = true -> upd d (VArr xs) = VArr xs.
Proof.
  intros Hd Hw. rewrite <- (upd_undef_l (VArr xs) Hw) at 2.
  cbn [upd]. rewrite !baseMerge_arr. now rewrite Hd.
Qed.

(** X14. The engine settings of a returned configuration. When the
    document has no engine block or an object one, [endpoint] and
    [frontend] are always defined. When the document sets [engine] to
    anything else - [null], a string, a number, a boolean, an array - that
    value is the configuration's engine as it is: neither the defaults nor
    the API key of the secret get in. *)
Theorem engine_of_returned_configuration (w : World) (s : LoadConfigSettings)
    (cfg : ApolloConfig) (cf : props) :
  loadConfig w s = Returned cfg ->
  documentOf (located w s) = VObj cf -> wf (VObj cf) = true ->
  let e := lookup "engine" cf in
  (e = VUndef \/ (exists ef, e = VObj ef) ->
   get (engine cfg) "endpoint" <> VUndef /\ get (engine cfg) "frontend" <> VUndef)
  /\ (is_leaf e = true \/ (exists xs, e = VArr xs) -> engine cfg = e).
Proof.
  intros Hl Hd Hc e.
  destruct (readSecret_shape w s) as (eco & He & Hs).
  rewrite (loadConfig_engine w s cfg cf eco Hl Hd Hc He (overrideShape_wf _ Hs)).
  fold e. assert (Hwe : wf e = true) by now apply lookup_wf.
  assert (Hk : lookup "engine" eco = VUndef
               \/ exists kf, lookup "engine" eco = VObj kf /\ wf (VObj kf) = true).
  { destruct Hs as [->|[key ->]]; [now left|right].
    now exists [("apiKey", VStr key)]. }
  split.
  - intros Hobj.
    assert (Hx : upd (lookup "engine" eco) e = VUndef
                 \/ exists xf, upd (lookup "engine" eco) e = VObj xf
                                /\ wf (VObj xf) = true).
    { destruct Hobj as [->|[ef E]].
      - destruct Hk as [->|(kf & -> & Hkf)]; [now left|right]. now exists kf.
      - right. rewrite E, upd_obj. eexists. split; [reflexivity|].
        rewrite <- upd_obj, <- E. apply wf_upd; [exact Hwe|].
        destruct Hk as [->|(kf & -> & Hkf)]; auto. }
    destruct Hx as [->|(xf & -> & Hxf)]; [split; discriminate|].
    rewrite upd_obj. unfold get. cbn [own_props].
    rewrite !lookup_eachProp by now apply wf_keys.
    split; intros H; apply upd_undef_inv in H; discriminate.
  - intros [Hleaf|[xs E]].
    + rewrite (upd_leaf (lookup "engine" eco) e Hleaf). now apply upd_leaf.
    + rewrite E in *.
      rewrite (upd_array_fresh (lookup "engine" eco) xs);
        [now apply upd_array_fresh| |exact Hwe].
      now destruct Hk as [->|(kf & -> & _)].
Qed.

Lemma engine_of_returned_configuration_witness :
  get (engine (resultOf (loadConfig (exampleWorld (found docBareClient) None)
                           (settings None None)))) "endpoint" <> VUndef.
Proof.
  refine (proj1 (proj1 (engine_of_returned_configuration
                          (exampleWorld (found docBareClient) None)
                          (settings None None) _ (own_props docBareClient)
                          _ eq_refl eq_refl) (or_introl eq_refl))).
  vm_compute. reflexivity.
Defined.

Lemma lookup_assign_all (more base : props) (k : string) :
  unique (keys more) = true ->
  lookup k (assign_all base more)
  = if has_key k more then lookup k more else lookup k base.
Proof.
  revert base. induction more as [|[k1 v1] more IH]; intros base Hu; [reflexivity|].
  change (assign_all base ((k1, v1) :: more))
    with (assign_all (set_key k1 v1 base) more).
  cbn in Hu. apply andb_true_iff in Hu as [Hk1 Hu]. apply negb_true_iff in Hk1.
  rewrite IH by exact Hu. cbn [has_key lookup]. rewrite lookup_set_key.
  destruct (String.eqb_spec k k1) as [E|E]; [|reflexivity].
  subst k1. assert (H : has_key k more = false).
  { rewrite <- mem_keys_has_key. exact Hk1. }
  now rewrite H.
Qed.

Lemma has_key_defined (k : string) (o : props) :
  lookup k o <> VUndef -> has_key k o = true.
Proof.
  intros H. destruct (has_key k o) eqn:E; [reflexivity|].
  now rewrite lookup_absent in H.
Qed.

(** What [synthesize] keeps of an object block: every key but the one the
    name is written to. *)
Lemma lookup_rebuiltBlock (t : ProjectType) (obf : props) (n : option string)
    (k : string) :
  wf (VObj obf) = true -> String.eqb k (nameKey t) = false ->
  lookup k obf <> VUndef ->
  get (rebuiltBlock t (VObj obf) n) k = lookup k obf.
Proof.
  intros Hw Hk Hd. unfold rebuiltBlock, get. cbn [own_props].
  rewrite !app_assoc, assign_all_snoc, lookup_set_key, Hk.
  unfold assign_all. rewrite fold_left_app. fold (assign_all [] DefaultConfigBase).
  fold (assign_all (assign_all [] DefaultConfigBase) obf).
  rewrite lookup_assign_all by now apply wf_keys.
  now rewrite has_key_defined.
Qed.

Lemma at_path_defined (v : value) (path : list step) (x : value) :
  at_path v path = x -> is_leaf x = true -> v <> VUndef.
Proof.
  intros H Hx E. subst v. rewrite at_path_undef in H. subst x. discriminate.
Qed.

(** X16. [loadConfig] loses no value of the located document, except the
    block it rebuilds around a resolved name. When the document is kept,
    every value of it that is neither [undefined] nor a container is found
    at the same place in the returned [rawConfig]. When a name is resolved,
    this holds outside the block of the resolved type, and inside an
    object block for every key but the one the name is written to. *)
Theorem loadConfig_keeps_document_values (w : World) (s : LoadConfigSettings)
    (cfg : ApolloConfig) (l : ConfigResult) (cf : props) (t : ProjectType)
    (n : option string) (v : value) :
  loadConfig w s = Returned cfg ->
  located w s = Some l -> config l = VObj cf -> wf (VObj cf) = true ->
  resolveProject (settingsType s) (settingsName s) (snd (readSecret w s))
    (located w s) = Some (t, n) ->
  is_leaf v = true ->
  (opt_truthy n = false ->
   forall path, at_path (VObj cf) path = v -> at_path (rawConfig cfg) path = v)
  /\ (forall k path,
         String.eqb k (blockKey t) = false ->
         at_path (VObj cf) (Key k :: path) = v ->
         at_path (rawConfig cfg) (Key k :: path) = v)
  /\ (forall k path,
         String.eqb k (nameKey t) = false ->
         at_path (VObj cf) (Key (blockKey t) :: Key k :: path) = v ->
         at_path (rawConfig cfg) (Key (blockKey t) :: Key k :: path) = v).
Proof.
  intros Hl Hloc Hd Hc Hr Hv.
  assert (Hdoc : documentOf (located w s) = VObj cf) by now rewrite Hloc.
  destruct (loadConfig_returned_form w s cfg cf Hl Hdoc Hc)
    as (t' & n' & cf' & eco & Hr' & Hs & E & Hw & ->).
  rewrite Hr in Hr'. injection Hr' as <- <-.
  pose proof (overrideShape_wf eco Hs) as He.
  cbn [newApolloConfig rawConfig].
  assert (Step : forall k path,
             at_path (lookup k cf') path = v ->
             at_path (VObj (layered eco cf')) (Key k :: path) = v).
  { intros k path H. cbn [at_path]. unfold get. cbn [own_props].
    rewrite lookup_layered by assumption.
    apply at_path_layeredValue; auto using lookup_wf. }
  assert (Other : forall k, String.eqb k (blockKey t) = false ->
                            lookup k cf' = lookup k cf).
  { intros k Hk. rewrite Hloc in E. destruct (opt_truthy n) eqn:N.
    - destruct (synthesize_rebuilt w s t n (Some l) cf Hd Hc) as [E' _];
        [now right|].
      rewrite E' in E. injection E as <-. now rewrite lookup_set_key, Hk.
    - rewrite synthesize_kept, Hd in E by exact N. now injection E as <-. }
  split; [|split].
  - intros N [|[k|i] path] H.
    + cbn in H. subst v. discriminate.
    + apply Step. rewrite Hloc, synthesize_kept, Hd in E by exact N.
      injection E as <-. exact H.
    + cbn [at_path own_elems] in H. rewrite nth_nil_undef, at_path_undef in H.
      subst v. discriminate.
  - intros k path Hk H. apply Step. rewrite Other by exact Hk. exact H.
  - intros k path Hk H. apply Step. cbn [at_path] in H. unfold get at 2 in H.
    cbn [own_props] in H.
    rewrite Hloc in E. destruct (opt_truthy n) eqn:N.
    + destruct (synthesize_rebuilt w s t n (Some l) cf Hd Hc) as [E' _];
        [now right|].
      rewrite E' in E. injection E as <-.
      rewrite lookup_set_key, String.eqb_refl. cbn [at_path].
      pose proof (at_path_defined _ _ _ H Hv) as Hdef.
      destruct (lookup (blockKey t) cf) as [ | | b | m | str | xs | obf ] eqn:B;
        try (exfalso; apply Hdef; reflexivity).
      rewrite lookup_rebuiltBlock; auto.
      rewrite <- B. now apply lookup_wf.
    + rewrite synthesize_kept, Hd in E by exact N. injection E as <-.
      exact H.
Qed.

Lemma loadConfig_keeps_document_values_witness :
  at_path (rawConfig (resultOf (loadConfig
                                  (exampleWorld (found docBareClient)
                                     (Some "service:cart:secret"))
                                  (settings None None))))
    [Key "client"; Key "name"] = VStr "web".
Proof.
  refine (proj2 (proj2 (loadConfig_keeps_document_values
                          (exampleWorld (found docBareClient)
                             (Some "service:cart:secret"))
                          (settings None None) _
                          {| config := docBareClient;
                             filepath := "/proj/apollo.config.js";
                             isEmpty := None |}
                          (own_props docBareClient) Client (Some "cart")
                          (VStr "web") _ eq_refl eq_refl eq_refl eq_refl eq_refl))
            "name" [] eq_refl eq_refl).
  vm_compute. reflexivity.
Defined.

End LoadConfigMore.
